(** * wunderland-sol: commit-rewriting scripts and the lemonsqueezy patcher

    A shallow embedding of the three scripts of [packages/wunderland]:

    - [scripts/rename_commits.py]  (module [RenameCommits]),
    - [scripts/author_rewrite.py]  (module [AuthorRewrite]),
    - [update_lemon_upsert.py]     (module [UpdateLemonUpsert]),

    together with the parts of the Python runtime they call: [str] methods
    (module [PyStr]), the [re] matcher (module [Re]) and the UTF-8 codec
    (module [Utf8]).  A Python [str] is a list of code points, a [bytes]
    object a list of bytes. *)

From stdpp Require Import base decidable option list gmap strings.
From Stdlib Require Import ZArith Lia Strings.Ascii Strings.Byte.

Local Open Scope Z_scope.

(** Equality of [bytes] objects is decided byte by byte. *)
#[global] Instance byte_eq_dec : EqDecision byte := Byte.byte_eq_dec.

(** ** Python [str] *)

Module PyStr.

(** The code point of an ASCII character of a source literal. *)
Definition ord (a : ascii) : Z := Z.of_N (N_of_ascii a).

(** A string literal of the source, as the [str] it denotes.  Every literal
    of the three scripts is pure ASCII, so one character is one code point. *)
Definition lit (s : string) : list Z := ord <$> String.list_ascii_of_string s.

(** [str.isspace] on one code point, which is also what [\s] matches in a
    [str] pattern: the characters of bidirectional type WS, B or S and of
    category Zs. *)
Definition isspace (c : Z) : bool :=
  ((0x09 <=? c) && (c <=? 0x0D)) || ((0x1C <=? c) && (c <=? 0x20))
  || (c =? 0x85) || (c =? 0xA0) || (c =? 0x1680)
  || ((0x2000 <=? c) && (c <=? 0x200A))
  || (c =? 0x2028) || (c =? 0x2029) || (c =? 0x202F) || (c =? 0x205F)
  || (c =? 0x3000).

(** [s.lstrip()], [s.rstrip()] and [s.strip()] without argument. *)
Fixpoint lstrip (s : list Z) : list Z :=
  match s with
  | c :: s' => if isspace c then lstrip s' else s
  | [] => []
  end.

Definition rstrip (s : list Z) : list Z := reverse (lstrip (reverse s)).

Definition strip (s : list Z) : list Z := rstrip (lstrip s).

(** [str.lower] on the code points that reach it in [classify].  It is
    called on the first group of the two patterns only, which holds ASCII
    letters and, through the ignore-case literals [i] and [s], U+0130,
    U+0131 and U+017F.  U+0130 lowers to the two code points U+0069 U+0307;
    U+0131 and U+017F are lowercase already.  Any other code point is left
    as it is. *)
Definition lower_char (c : Z) : list Z :=
  if (0x41 <=? c) && (c <=? 0x5A) then [c + 32]
  else if c =? 0x130 then [0x69; 0x307]
  else [c].

Definition lower (s : list Z) : list Z := s ≫= lower_char.

(** [sub in s] for a one-character [sub]. *)
Definition contains_char (c : Z) (s : list Z) : bool := bool_decide (c ∈ s).

(** [s.split(sep, 1)] for a one-character [sep] that occurs in [s]: the
    text before the first [sep] and the text after it. *)
Fixpoint split_once (sep : Z) (s : list Z) : list Z * list Z :=
  match s with
  | [] => ([], [])
  | c :: s' =>
      if c =? sep then ([], s')
      else let '(a, b) := split_once sep s' in (c :: a, b)
  end.

(** [s[:n]]. *)
Definition slice_to (n : nat) (s : list Z) : list Z := take n s.

(** [s.startswith(sub)]. *)
Fixpoint startswith (sub s : list Z) : bool :=
  match sub, s with
  | [], _ => true
  | a :: sub', c :: s' => (a =? c) && startswith sub' s'
  | _ :: _, [] => false
  end.

(** [s.find(sub)]: the lowest index at which [sub] occurs in [s]. *)
Fixpoint find (sub s : list Z) : option nat :=
  if startswith sub s then Some 0%nat
  else match s with
       | [] => None
       | _ :: s' => S <$> find sub s'
       end.

(** [sub in s]. *)
Definition contains (sub s : list Z) : bool := bool_decide (is_Some (find sub s)).

(** [s.replace(old, new, 1)]: the first occurrence of [old] is replaced,
    and [s] is returned as it is when there is none. *)
Definition replace_first (old new s : list Z) : list Z :=
  match find old s with
  | Some i => take i s ++ new ++ drop (i + length old)%nat s
  | None => s
  end.

(** The number of indices at which [sub] occurs in [s]. *)
Fixpoint occurrences (sub s : list Z) : nat :=
  ((if startswith sub s then 1 else 0)
   + match s with
     | [] => 0
     | _ :: s' => occurrences sub s'
     end)%nat.

(** Lines of a literal, each ended by a line feed. *)
Definition lines (ls : list string) : list Z := ls ≫= (λ l, lit l ++ [0x0A]).

End PyStr.

(** ** The [re] matcher

    A backtracking matcher for the constructs the two patterns of
    [rename_commits.py] use.  [run r st] lists the states in which a match of
    [r] started in [st] can end, in the order in which the backtracking
    engine of [re] tries them: alternatives left to right, greedy repetition
    from the longest run down to the empty one.  The match [re.match] returns
    is the first one of the list. *)

Module Re.

Inductive regex : Type :=
| Eps
| Chr (p : Z → bool)          (* one character of a class, a literal, [.] *)
| Star (p : Z → bool)         (* greedy [c*] for a one-character [c] *)
| Seq (r1 r2 : regex)
| Alt (r1 r2 : regex)
| Opt (r : regex)             (* greedy [r?] *)
| Group (n : nat) (r : regex) (* capturing group number [n] *)
| Bol                         (* [^] *)
| Eol                         (* [$] without MULTILINE *)
| Boundary (w : Z → bool).    (* [\b], for the word characters [w] *)

(** Greedy [c+]. *)
Definition Plus (p : Z → bool) : regex := Seq (Chr p) (Star p).

(** A match in progress: the text already consumed (last character first),
    the text still ahead, and the groups closed so far (latest first). *)
Record mstate : Type := MState {
  seen : list Z;
  todo : list Z;
  caps : list (nat * list Z)
}.

Definition start (s : list Z) : mstate := MState [] s [].

(** The whole subject string of a match in progress. *)
Definition subject (st : mstate) : list Z := reverse (seen st) ++ todo st.

(** The text consumed between [st] and a later state [st']. *)
Definition consumed (st st' : mstate) : list Z :=
  reverse (take (length (seen st') - length (seen st))%nat (seen st')).

Fixpoint star (p : Z → bool) (sn td : list Z) : list (list Z * list Z) :=
  match td with
  | c :: td' => if p c then star p (c :: sn) td' ++ [(sn, td)] else [(sn, td)]
  | [] => [(sn, td)]
  end.

Definition at_boundary (w : Z → bool) (st : mstate) : bool :=
  xorb (from_option w false (head (seen st)))
       (from_option w false (head (todo st))).

Fixpoint run (r : regex) (st : mstate) : list mstate :=
  match r with
  | Eps => [st]
  | Chr p =>
      match todo st with
      | c :: td => if p c then [MState (c :: seen st) td (caps st)] else []
      | [] => []
      end
  | Star p => (λ x, MState x.1 x.2 (caps st)) <$> star p (seen st) (todo st)
  | Seq r1 r2 => run r1 st ≫= run r2
  | Alt r1 r2 => run r1 st ++ run r2 st
  | Opt r1 => run r1 st ++ [st]
  | Group n r1 =>
      (λ st', MState (seen st') (todo st') ((n, consumed st st') :: caps st'))
        <$> run r1 st
  | Bol => match seen st with [] => [st] | _ :: _ => [] end
  | Eol =>
      match todo st with
      | [] => [st]
      | c :: td => match td with
                   | [] => if c =? 0x0A then [st] else []
                   | _ :: _ => []
                   end
      end
  | Boundary w => if at_boundary w st then [st] else []
  end.

(** [re.match(r, s)]: the first way to match [r] at the start of [s]. *)
Definition rematch (r : regex) (s : list Z) : option mstate :=
  head (run r (start s)).

(** [m.group(n)] for a group that took part in the match.  For a group that
    did not, Python gives [None]; here the empty text stands for it.  The
    groups [classify] reads lie outside every optional part of their
    pattern, so they take part in every match ([typed_re_groups] and
    [prefix_re_groups] below). *)
Definition group (m : mstate) (n : nat) : list Z :=
  default [] ((λ x, x.2.2) <$> list_find (λ x, x.1 = n) (caps m)).

(** [re.sub(c+, repl, s)] for a one-character [c]: every maximal run of
    characters of the class is replaced by [repl]; [inrun] says that the
    previous character belonged to a run already replaced. *)
Fixpoint sub_plus_from (p : Z → bool) (repl : list Z) (inrun : bool)
    (s : list Z) : list Z :=
  match s with
  | [] => []
  | c :: s' =>
      if p c then
        if inrun then sub_plus_from p repl true s'
        else repl ++ sub_plus_from p repl true s'
      else c :: sub_plus_from p repl false s'
  end.

Definition sub_plus (p : Z → bool) (repl s : list Z) : list Z :=
  sub_plus_from p repl false s.

(** *** Character tests *)

(** A literal character. *)
Definition just (a : ascii) (c : Z) : bool := c =? PyStr.ord a.

(** A negated one-character class, [[^a]]. *)
Definition anybut (a : ascii) (c : Z) : bool := negb (c =? PyStr.ord a).

(** [.] without DOTALL: any character but the line feed. *)
Definition dot (c : Z) : bool := negb (c =? 0x0A).

(** [[A-Za-z]] without IGNORECASE. *)
Definition ascii_letter (c : Z) : bool :=
  ((0x41 <=? c) && (c <=? 0x5A)) || ((0x61 <=? c) && (c <=? 0x7A)).

(** The lowercase ASCII letter [a] as a literal of a [str] pattern compiled
    with IGNORECASE: it matches the characters that lower to [a] (the two
    ASCII cases, and U+0130 for [i], U+212A for [k]) and the ones the
    matcher treats as equivalent (U+0131 for [i], U+017F for [s]). *)
Definition ichr (a : ascii) (c : Z) : bool :=
  let l := PyStr.ord a in
  (c =? l) || (c =? l - 32)
  || ((l =? 0x69) && ((c =? 0x130) || (c =? 0x131)))
  || ((l =? 0x73) && (c =? 0x17F))
  || ((l =? 0x6B) && (c =? 0x212A)).

(** A word under IGNORECASE, given in lowercase. *)
Fixpoint iword_of (w : list ascii) : regex :=
  match w with
  | [] => Eps
  | [a] => Chr (ichr a)
  | a :: w' => Seq (Chr (ichr a)) (iword_of w')
  end.

Definition iword (w : string) : regex := iword_of (String.list_ascii_of_string w).

(** [str.isalnum] below U+0080. *)
Definition ascii_alnum (c : Z) : bool :=
  ascii_letter c || ((0x30 <=? c) && (c <=? 0x39)).

End Re.

Declare Scope regex_scope.
Delimit Scope regex_scope with re.
Bind Scope regex_scope with Re.regex.
Infix "⨾" := Re.Seq (at level 60, right associativity) : regex_scope.
Infix "∣" := Re.Alt (at level 65, right associativity) : regex_scope.

(** ** UTF-8 *)

Module Utf8.

(** A continuation byte, [10xxxxxx]. *)
Definition cont (b : Z) : bool := (0x80 <=? b) && (b <=? 0xBF).

(** U+FFFD, which [errors='replace'] puts in place of each ill-formed
    sequence. *)
Definition REPLACEMENT : Z := 0xFFFD.

(** The code point of a well-formed sequence of two, three or four bytes,
    computed as the decoder does: the bytes are shifted into place and
    added, and the marker bits of all of them are subtracted at once. *)
Definition cp2 (b1 b2 : Z) : Z :=
  Z.shiftl b1 6 + b2 - (Z.shiftl 0xC0 6 + 0x80).

Definition cp3 (b1 b2 b3 : Z) : Z :=
  Z.shiftl b1 12 + Z.shiftl b2 6 + b3
  - (Z.shiftl 0xE0 12 + Z.shiftl 0x80 6 + 0x80).

Definition cp4 (b1 b2 b3 b4 : Z) : Z :=
  Z.shiftl b1 18 + Z.shiftl b2 12 + Z.shiftl b3 6 + b4
  - (Z.shiftl 0xF0 18 + Z.shiftl 0x80 12 + Z.shiftl 0x80 6 + 0x80).

(** The second byte of a three-byte ([four = false]) or four-byte sequence
    led by [b1] is wrong: not a continuation byte, or one that would make
    the sequence overlong, a surrogate, or larger than U+10FFFF. *)
Definition bad_second (four : bool) (b1 b2 : Z) : bool :=
  negb (cont b2)
  || (if four
      then (if b2 <? 0x90 then b1 =? 0xF0 else b1 =? 0xF4)
      else (if b2 <? 0xA0 then b1 =? 0xE0 else b1 =? 0xED)).

(** [bytes.decode('utf-8', errors='replace')] on byte values.  A lead byte
    with the valid part of its sequence is one error, replaced by one
    U+FFFD, and decoding resumes at the byte that broke the sequence. *)
Fixpoint decode_values (bs : list Z) : list Z :=
  match bs with
  | [] => []
  | b1 :: t1 =>
      if b1 <? 0x80 then b1 :: decode_values t1
      else if b1 <? 0xC2 then REPLACEMENT :: decode_values t1
      else if b1 <? 0xE0 then
        match t1 with
        | [] => [REPLACEMENT]
        | b2 :: t2 =>
            if cont b2 then cp2 b1 b2 :: decode_values t2
            else REPLACEMENT :: decode_values t1
        end
      else if b1 <? 0xF0 then
        match t1 with
        | [] => [REPLACEMENT]
        | b2 :: t2 =>
            if bad_second false b1 b2 then REPLACEMENT :: decode_values t1
            else
              match t2 with
              | [] => [REPLACEMENT]
              | b3 :: t3 =>
                  if cont b3 then cp3 b1 b2 b3 :: decode_values t3
                  else REPLACEMENT :: decode_values t2
              end
        end
      else if b1 <? 0xF5 then
        match t1 with
        | [] => [REPLACEMENT]
        | b2 :: t2 =>
            if bad_second true b1 b2 then REPLACEMENT :: decode_values t1
            else
              match t2 with
              | [] => [REPLACEMENT]
              | b3 :: t3 =>
                  if negb (cont b3) then REPLACEMENT :: decode_values t2
                  else
                    match t3 with
                    | [] => [REPLACEMENT]
                    | b4 :: t4 =>
                        if cont b4 then cp4 b1 b2 b3 b4 :: decode_values t4
                        else REPLACEMENT :: decode_values t3
                    end
              end
        end
      else REPLACEMENT :: decode_values t1
  end.

Definition value (b : byte) : Z := Z.of_N (Byte.to_N b).

Definition decode (bs : list byte) : list Z := decode_values (value <$> bs).

(** [str.encode('utf-8')] on one code point; [None] is the
    [UnicodeEncodeError] raised for a surrogate. *)
Definition encode_char (c : Z) : option (list Z) :=
  if c <? 0 then None
  else if c <? 0x80 then Some [c]
  else if c <? 0x800 then
    Some [Z.lor 0xC0 (Z.shiftr c 6); Z.lor 0x80 (Z.land c 0x3F)]
  else if (0xD800 <=? c) && (c <=? 0xDFFF) then None
  else if c <? 0x10000 then
    Some [Z.lor 0xE0 (Z.shiftr c 12);
          Z.lor 0x80 (Z.land (Z.shiftr c 6) 0x3F);
          Z.lor 0x80 (Z.land c 0x3F)]
  else if c <? 0x110000 then
    Some [Z.lor 0xF0 (Z.shiftr c 18);
          Z.lor 0x80 (Z.land (Z.shiftr c 12) 0x3F);
          Z.lor 0x80 (Z.land (Z.shiftr c 6) 0x3F);
          Z.lor 0x80 (Z.land c 0x3F)]
  else None.

Definition byte_of (z : Z) : byte := default x00 (Byte.of_N (Z.to_N z)).

Definition encode (s : list Z) : option (list byte) :=
  (λ l, byte_of <$> concat l) <$> mapM encode_char s.

(** A [bytes] literal of the source. *)
Definition blit (s : string) : list byte := String.list_byte_of_string s.

End Utf8.

(** ** [scripts/rename_commits.py] *)

Module RenameCommits.
Import PyStr Re.

(** The [TYPES] dictionary. *)
Definition TYPES : gmap (list Z) (list Z) :=
  list_to_map
    [ (lit "feature", lit "feat"); (lit "feat", lit "feat");
      (lit "fix", lit "fix"); (lit "bugfix", lit "fix");
      (lit "chore", lit "chore"); (lit "docs", lit "docs");
      (lit "documentation", lit "docs");
      (lit "refactor", lit "refactor"); (lit "test", lit "test");
      (lit "tests", lit "test");
      (lit "perf", lit "perf"); (lit "performance", lit "perf");
      (lit "build", lit "build"); (lit "ci", lit "ci");
      (lit "revert", lit "revert"); (lit "wip", lit "chore");
      (lit "cleanup", lit "chore") ].

(** [TYPES.get(k, 'chore')]. *)
Definition types_get (k : list Z) : list Z := default (lit "chore") (TYPES !! k).

(** The first pattern of [classify], as the source writes it, and as the
    matcher reads it. *)
Definition typed_pattern : string := "^([A-Za-z]+)(\([^)]*\))?:\s*(.*)$".

Definition typed_re : regex :=
  (Bol ⨾ Group 1 (Plus ascii_letter)
       ⨾ Opt (Group 2 (Chr (just "(") ⨾ Star (anybut ")") ⨾ Chr (just ")")))
       ⨾ Chr (just ":") ⨾ Star isspace ⨾ Group 3 (Star dot) ⨾ Eol)%re.

Section Classifier.

(** [str.isalnum] on the code points from U+0080 on.  It is a table of the
    Unicode database the interpreter was built with; the scripts do not
    fix it, so it is a parameter of the model. *)
Variable isalnum_high : Z → bool.

(** [\w] in a [str] pattern: alphanumeric, or the underscore. *)
Definition isword (c : Z) : bool :=
  if c <? 0x80 then ascii_alnum c || (c =? 0x5F) else isalnum_high c.

(** The class of separators after a prefix word: colon, whitespace, hyphen. *)
Definition issep (c : Z) : bool := just ":" c || isspace c || just "-" c.

(** The second pattern of [classify], compiled with [re.I]. *)
Definition prefix_pattern : string :=
  "^(WIP|Fix|Feature|Docs?|Refactor|Test|Perf|Build|CI)\b[:\s-]*(.*)$".

Definition prefix_re : regex :=
  (Bol ⨾ Group 1 (iword "wip" ∣ iword "fix" ∣ iword "feature"
                    ∣ (iword "doc" ⨾ Opt (Chr (ichr "s")))
                    ∣ iword "refactor" ∣ iword "test" ∣ iword "perf"
                    ∣ iword "build" ∣ iword "ci")
       ⨾ Boundary isword ⨾ Star issep ⨾ Group 2 (Star dot) ⨾ Eol)%re.

Definition classify (s : list Z) : list Z :=
  let s0 := strip s in
  match rematch typed_re s0 with
  | Some m =>
      let t := types_get (lower (group m 1)) in
      t ++ lit ": " ++ strip (group m 3)
  | None =>
      (* Prefixes without colon *)
      match rematch prefix_re s0 with
      | Some m =>
          let t := types_get (lower (group m 1)) in
          let rest := match strip (group m 2) with
                      | [] => s0
                      | r => r
                      end in
          t ++ lit ": " ++ rest
      | None =>
          (* Default *)
          match s0 with
          | [] => lit "chore: empty commit"
          | _ => lit "chore: " ++ s0
          end
      end
  end.

Definition normalize_subject (subj : list Z) : list Z :=
  let subj := classify subj in
  let subj := strip (sub_plus isspace (lit " ") subj) in
  slice_to 120 subj.

(** The filter-repo entry point.  [None] stands for an exception (the
    only one in reach is the [UnicodeEncodeError] of [encode]). *)
Definition rename_message (message : list byte) : option (list byte) :=
  match message with
  | [] => Some (Utf8.blit "chore: empty commit")
  | _ =>
      let text := strip (Utf8.decode message) in
      let '(first, rest) :=
        if contains_char 0x0A text then split_once 0x0A text
        else (text, []) in
      let subj := normalize_subject first in
      let body := strip rest in
      match rest, body with
      | _ :: _, _ :: _ => Utf8.encode (subj ++ [0x0A; 0x0A] ++ body)
      | _, _ => Utf8.encode subj
      end
  end.

End Classifier.

End RenameCommits.

(** ** [scripts/author_rewrite.py] *)

Module AuthorRewrite.
Import Utf8.

(** The fields of filter-repo's commit object the callback reads and
    assigns. *)
Record commit : Type := Commit {
  author_name : list byte;
  author_email : list byte;
  committer_name : list byte;
  committer_email : list byte
}.

Definition target_name : list byte := blit "Framers".
Definition target_email : list byte := blit "team@frame.dev".
Definition new_name : list byte := blit "Johnny Dunn".
Definition new_email : list byte := blit "johnnyfived@protonmail.com".

(** The body of the script, run by filter-repo on each commit: the commit
    goes in, the commit with its fields reassigned comes out. *)
Definition callback (c : commit) : commit :=
  let c :=
    if bool_decide (author_name c = target_name)
       || bool_decide (author_email c = target_email)
    then Commit new_name new_email (committer_name c) (committer_email c)
    else c in
  if bool_decide (committer_name c = target_name)
     || bool_decide (committer_email c = target_email)
  then Commit (author_name c) (author_email c) new_name new_email
  else c.

End AuthorRewrite.

(** ** [update_lemon_upsert.py] *)

Module UpdateLemonUpsert.
Import PyStr.

Definition needle : list Z :=
  lines [ "  await upsertUserFromSubscription({";
          "    email,";
          "    subscriptionStatus: normalizedStatus || 'active',";
          "    subscriptionTier: plan?.metadata?.tier ?? (normalizedStatus === 'active' ? 'unlimited' : 'metered'),";
          "    lemonSubscriptionId," ].

Definition replacement : list Z :=
  lines [ "  await upsertUserFromSubscription({";
          "    email,";
          "    subscriptionStatus: normalizedStatus || 'active',";
          "    subscriptionTier: plan?.metadata?.tier ?? (normalizedStatus === 'active' ? 'unlimited' : 'metered'),";
          "    subscriptionPlanId: planId ?? null,";
          "    lemonSubscriptionId," ].

(** How the process ends: normally, with status 0, or by [SystemExit] with
    a message, which the interpreter prints before it exits with status 1. *)
Inductive ending : Type :=
| Finished
| SystemExit (msg : list Z).

Definition exit_status (e : ending) : Z :=
  match e with
  | Finished => 0
  | SystemExit _ => 1
  end.

(** What a run leaves behind: how it ended, the texts passed to
    [write_text] in order, and the content of the file afterwards. *)
Record outcome : Type := Outcome {
  ended : ending;
  writes : list (list Z);
  file : list Z
}.

(** The script, run on a service file whose text is [text]. *)
Definition run (text : list Z) : outcome :=
  if negb (contains needle text) then
    Outcome (SystemExit (lit "upsert call not found in lemonsqueezy service"))
      [] text
  else
    let text := replace_first needle replacement text in
    Outcome Finished [text] text.

End UpdateLemonUpsert.

(** * Vocabulary of the properties *)

Module Props.
Import PyStr Re.

(** A text with no whitespace at either end, as [strip] leaves it. *)
Definition trimmed (s : list Z) : Prop :=
  from_option isspace false (head s) = false
  ∧ from_option isspace false (last s) = false.

(** Every character of a match in progress, in the subject and in the
    groups, satisfies [P]. *)
Definition state_all (P : Z → Prop) (st : mstate) : Prop :=
  Forall P (seen st) ∧ Forall P (todo st)
  ∧ Forall (λ x, Forall P x.2) (caps st).

(** The matches of a pattern, told without the order in which the engine
    tries them: [matches r st st'] says that [r] can match from [st] and
    end in [st'].  [run] lists exactly these states. *)
Inductive matches : regex → mstate → mstate → Prop :=
| matches_eps st : matches Eps st st
| matches_chr p c sn td cs :
    p c = true →
    matches (Chr p) (MState sn (c :: td) cs) (MState (c :: sn) td cs)
| matches_star p w sn td cs :
    Forall (λ c, p c = true) w →
    matches (Star p) (MState sn (w ++ td) cs) (MState (reverse w ++ sn) td cs)
| matches_seq r1 r2 st mid st' :
    matches r1 st mid → matches r2 mid st' → matches (Seq r1 r2) st st'
| matches_alt_l r1 r2 st st' : matches r1 st st' → matches (Alt r1 r2) st st'
| matches_alt_r r1 r2 st st' : matches r2 st st' → matches (Alt r1 r2) st st'
| matches_opt r st st' : matches r st st' → matches (Opt r) st st'
| matches_opt_skip r st : matches (Opt r) st st
| matches_group n r st st' :
    matches r st st' →
    matches (Group n r) st
      (MState (seen st') (todo st') ((n, consumed st st') :: caps st'))
| matches_bol td cs : matches Bol (MState [] td cs) (MState [] td cs)
| matches_eol st : todo st = [] ∨ todo st = [0x0A] → matches Eol st st
| matches_boundary w st :
    at_boundary w st = true → matches (Boundary w) st st.

(** The ten canonical type keywords. *)
Definition canonical_types : list (list Z) :=
  [ lit "feat"; lit "fix"; lit "chore"; lit "docs"; lit "refactor";
    lit "test"; lit "perf"; lit "build"; lit "ci"; lit "revert" ].

(** Whitespace occurs in single spaces only: a whitespace character is a
    space, and the character after it, if any, is not whitespace. *)
Fixpoint single_spaced (s : list Z) : Prop :=
  match s with
  | [] => True
  | c :: s' =>
      (isspace c = true →
       c = 0x20 ∧ from_option isspace false (head s') = false)
      ∧ single_spaced s'
  end.

(** A Unicode scalar value: a code point that is not a surrogate.  These
    are the code points [encode] accepts. *)
Definition scalar (c : Z) : Prop := 0 ≤ c < 0xD800 ∨ 0xE000 ≤ c < 0x110000.

(** The first line of a text, and everything after its first line feed. *)
Definition first_line (text : list Z) : list Z := (split_once 0x0A text).1.

Definition after_first_line (text : list Z) : list Z :=
  (split_once 0x0A text).2.

(** One of two texts starts with the other: they agree as far as both go. *)
Definition compat (p q : list Z) : bool := startswith p q || startswith q p.

(** [q] agrees with none of the ends [drop j y] of [y] for
    [from ≤ j < length y]: no occurrence of [q] can start in [y] from index
    [from] on, whatever follows [y]. *)
Definition misfit (from : nat) (q y : list Z) : bool :=
  forallb (λ j, negb (compat q (drop j y))) (seq from (length y - from)).

(** The number of indices inside [a] at which [p] occurs in [a ++ s]. *)
Fixpoint occurrences_upto (p a s : list Z) : nat :=
  match a with
  | [] => 0
  | _ :: a' =>
      ((if startswith p (a ++ s) then 1 else 0) + occurrences_upto p a' s)%nat
  end.

(** The characters a match of [r] can consume: those of its classes. *)
Fixpoint can_read (r : regex) (c : Z) : Prop :=
  match r with
  | Chr p | Star p => p c = true
  | Seq r1 r2 | Alt r1 r2 => can_read r1 c ∨ can_read r2 c
  | Opt r1 | Group _ r1 => can_read r1 c
  | Eps | Bol | Eol | Boundary _ => False
  end.

(** Every group [n] of [r] can only consume characters that satisfy [Q n]. *)
Fixpoint groups_read (Q : nat → Z → Prop) (r : regex) : Prop :=
  match r with
  | Group n r1 => (∀ c, can_read r1 c → Q n c) ∧ groups_read Q r1
  | Seq r1 r2 | Alt r1 r2 => groups_read Q r1 ∧ groups_read Q r2
  | Opt r1 => groups_read Q r1
  | Eps | Chr _ | Star _ | Bol | Eol | Boundary _ => True
  end.

(** Group [n] takes part in every match of [r]: it lies on every way
    through [r], outside the optional parts. *)
Fixpoint always_takes (n : nat) (r : regex) : Prop :=
  match r with
  | Group k r1 => k = n ∨ always_takes n r1
  | Seq r1 r2 => always_takes n r1 ∨ always_takes n r2
  | Alt r1 r2 => always_takes n r1 ∧ always_takes n r2
  | Eps | Chr _ | Star _ | Opt _ | Bol | Eol | Boundary _ => False
  end.

(** Group [n] took part in the match [m]: [m.group(n)] is not [None]. *)
Definition taken (m : mstate) (n : nat) : Prop :=
  is_Some (list_find (λ x, x.1 = n) (caps m)).

(** The code points on which [lower_char] is [str.lower]. *)
Definition lowered_exactly (c : Z) : Prop :=
  ascii_letter c = true ∨ c = 0x130 ∨ c = 0x131 ∨ c = 0x17F.

(** The prefix words of the second pattern, in lowercase and in the order
    of the alternation ("Docs?" stands for the two words "docs" and "doc"). *)
Definition prefix_words : list string :=
  ["wip"; "fix"; "feature"; "docs"; "doc"; "refactor"; "test"; "perf";
   "build"; "ci"].

(** [c] is the lowercase ASCII letter [a] or its capital, and [P] spells
    [word] letter by letter in any mix of the two cases. *)
Definition spelled_char (a : ascii) (c : Z) : Prop :=
  c = ord a ∨ c = ord a - 32.

Definition spelled (word : string) (P : list Z) : Prop :=
  Forall2 spelled_char (String.list_ascii_of_string word) P.

Definition lower_letter (a : ascii) : Prop := 0x61 ≤ ord a ≤ 0x7A.

(** An ASCII character that ends a word and opens no typed line: neither
    alphanumeric nor the underscore, and neither a colon nor an opening
    parenthesis. *)
Definition ends_word (c : Z) : bool :=
  (c <? 0x80) && negb (ascii_alnum c || (c =? 0x5F))
  && negb (c =? 0x3A) && negb (c =? 0x28).

(** A subject in normal form: a canonical keyword and a colon, then either
    nothing or one space and a trimmed, single-spaced remainder, within 120
    characters in all. *)
Definition normal_subject (x : list Z) : Prop :=
  ∃ t r, t ∈ canonical_types
         ∧ x = t ++ [0x3A] ++ match r with [] => [] | _ :: _ => 0x20 :: r end
         ∧ trimmed r ∧ single_spaced r ∧ (length x ≤ 120)%nat.

(** An ASCII character that ends a run of letters and opens no typed line:
    not a letter, not a colon and not an opening parenthesis. *)
Definition ends_letters (c : Z) : bool :=
  (c <? 0x80) && negb (ascii_letter c)
  && negb (c =? 0x3A) && negb (c =? 0x28).

(** The message text [rename_message] encodes: the subject alone, or the
    subject, an empty line and the body. *)
Definition laid_out (subj body : list Z) : list Z :=
  subj ++ match body with [] => [] | _ :: _ => [0x0A; 0x0A] ++ body end.

End Props.

Import Props.

(** * Properties *)

(** A decidable statement about closed terms, settled by evaluation. *)
Ltac by_evaluation := apply (bool_decide_unpack _); by vm_compute.

(** ** Stripping *)

Section Strip.
Import PyStr.

Lemma lstrip_split s :
  ∃ w, s = w ++ lstrip s ∧ Forall (λ c, isspace c = true) w.
Proof.
  induction s as [|c s [w [E Hw]]]; simpl.
  - by exists [].
  - destruct (isspace c) eqn:Hc.
    + exists (c :: w). split; [by rewrite E at 1 | by constructor].
    + by exists [].
Qed.

Lemma lstrip_head s : from_option isspace false (head (lstrip s)) = false.
Proof.
  induction s as [|c s IH]; simpl; [done|].
  destruct (isspace c) eqn:Hc; [done | by simpl].
Qed.

Lemma lstrip_id s :
  from_option isspace false (head s) = false → lstrip s = s.
Proof. destruct s as [|c s]; simpl; [done|]. by intros ->. Qed.

Lemma lstrip_spaces w s :
  Forall (λ c, isspace c = true) w → lstrip (w ++ s) = lstrip s.
Proof. induction 1 as [|c w Hc _ IH]; simpl; [done | by rewrite Hc]. Qed.

Lemma rstrip_split s :
  ∃ w, s = rstrip s ++ w ∧ Forall (λ c, isspace c = true) w.
Proof.
  unfold rstrip. destruct (lstrip_split (reverse s)) as [w [E Hw]].
  exists (reverse w). split; [|by apply Forall_reverse].
  by rewrite <-reverse_app, <-E, reverse_involutive.
Qed.

Lemma rstrip_last s : from_option isspace false (last (rstrip s)) = false.
Proof. unfold rstrip. rewrite last_reverse. apply lstrip_head. Qed.

Lemma rstrip_id s :
  from_option isspace false (last s) = false → rstrip s = s.
Proof.
  intros H. unfold rstrip. rewrite lstrip_id, reverse_involutive; [done|].
  by rewrite head_reverse.
Qed.

Lemma lstrip_nil s : lstrip s = [] → Forall (λ c, isspace c = true) s.
Proof.
  induction s as [|c s IH]; simpl; [done|].
  destruct (isspace c) eqn:Hc; [|done]. by constructor; auto.
Qed.

Lemma lstrip_app s u : lstrip s ≠ [] → lstrip (s ++ u) = lstrip s ++ u.
Proof.
  induction s as [|c s IH]; simpl; [done|].
  destruct (isspace c); [done | by simpl].
Qed.

Lemma rstrip_app_keep s c :
  isspace c = false → ∀ u, rstrip (u ++ c :: s) = u ++ rstrip (c :: s).
Proof.
  intros Hc u. unfold rstrip.
  rewrite (reverse_app u), lstrip_app, reverse_app, reverse_involutive; [done|].
  intros E%lstrip_nil. rewrite Forall_forall in E.
  assert (isspace c = true); [|congruence].
  apply E. rewrite elem_of_reverse. left.
Qed.

Lemma rstrip_head s :
  from_option isspace false (head s) = false →
  from_option isspace false (head (rstrip s)) = false.
Proof.
  destruct (rstrip_split s) as [w [E Hw]].
  destruct (rstrip s) as [|d l]; [done|].
  rewrite E. by simpl.
Qed.

Lemma strip_trimmed s : trimmed (strip s).
Proof.
  split; unfold strip.
  - apply rstrip_head, lstrip_head.
  - apply rstrip_last.
Qed.

Lemma trimmed_strip s : trimmed s → strip s = s.
Proof. intros [Hh Hl]. unfold strip. by rewrite lstrip_id, rstrip_id. Qed.

Lemma strip_idemp s : strip (strip s) = strip s.
Proof. apply trimmed_strip, strip_trimmed. Qed.

(** [strip] returns a contiguous part of its argument. *)
Lemma strip_split s :
  ∃ w1 w2, s = w1 ++ strip s ++ w2
           ∧ Forall (λ c, isspace c = true) w1
           ∧ Forall (λ c, isspace c = true) w2.
Proof.
  destruct (lstrip_split s) as [w1 [E1 H1]].
  destruct (rstrip_split (lstrip s)) as [w2 [E2 H2]].
  exists w1, w2. unfold strip. by rewrite <-E2, <-E1.
Qed.

Lemma strip_Forall (P : Z → Prop) s : Forall P s → Forall P (strip s).
Proof.
  intros H. destruct (strip_split s) as (w1 & w2 & E & _ & _).
  rewrite E in H. by apply Forall_app in H as [_ [H _]%Forall_app].
Qed.

Lemma trimmed_nil : trimmed [].
Proof. done. Qed.

End Strip.

(** ** The matcher *)

Section Matches.
Import Re.

Lemma star_sound p td : ∀ sn x,
  x ∈ star p sn td →
  ∃ w, x.1 = reverse w ++ sn ∧ td = w ++ x.2 ∧ Forall (λ c, p c = true) w.
Proof.
  induction td as [|c td IH]; intros sn x Hx; simpl in Hx.
  - apply list_elem_of_singleton in Hx as ->. by exists [].
  - destruct (p c) eqn:Hc.
    + apply elem_of_app in Hx as [Hx | ->%list_elem_of_singleton];
        [|by exists []].
      destruct (IH _ _ Hx) as (w & E1 & E2 & Hw).
      exists (c :: w). split; [by rewrite reverse_cons, <-app_assoc|].
      split; [by rewrite E2 at 1 | by constructor].
    + apply list_elem_of_singleton in Hx as ->. by exists [].
Qed.

Lemma star_complete p w : ∀ sn td,
  Forall (λ c, p c = true) w → (reverse w ++ sn, td) ∈ star p sn (w ++ td).
Proof.
  induction w as [|c w IH]; intros sn td Hw; simpl.
  - destruct td as [|d td]; simpl; [by left|].
    destruct (p d); [apply elem_of_app; right|]; by left.
  - apply Forall_cons in Hw as [-> Hw]. apply elem_of_app. left.
    rewrite reverse_cons, <-app_assoc. by apply IH.
Qed.

(** Every state [run] lists ends a match... *)
Lemma run_sound r : ∀ st st', st' ∈ run r st → matches r st st'.
Proof.
  induction r as [|p|p|r1 IH1 r2 IH2|r1 IH1 r2 IH2|r1 IH1|n r1 IH1| | |w];
    intros [sn td cs] st' Hin; simpl in Hin.
  - apply list_elem_of_singleton in Hin as ->. constructor.
  - destruct td as [|c td]; [by apply elem_of_nil in Hin|].
    destruct (p c) eqn:Hc; [|by apply elem_of_nil in Hin].
    apply list_elem_of_singleton in Hin as ->. by constructor.
  - apply list_elem_of_fmap in Hin as ([sn' td'] & -> & Hx).
    apply star_sound in Hx as (w & E1 & E2 & Hw). simpl in *. subst.
    by constructor.
  - apply list_elem_of_bind in Hin as (y & Hin & Hy).
    econstructor; [by apply IH1 | by apply IH2].
  - apply elem_of_app in Hin as [Hin | Hin];
      [apply matches_alt_l | apply matches_alt_r]; auto.
  - apply elem_of_app in Hin as [Hin | ->%list_elem_of_singleton];
      [apply matches_opt; auto | apply matches_opt_skip].
  - apply list_elem_of_fmap in Hin as (y & -> & Hy).
    apply matches_group. auto.
  - destruct sn; [|by apply elem_of_nil in Hin].
    apply list_elem_of_singleton in Hin as ->. constructor.
  - assert (st' = MState sn td cs ∧ (td = [] ∨ td = [0x0A])) as [-> H].
    { destruct td as [|c [|d td]]; [| destruct (c =? 10) eqn:E | ];
        try (by apply elem_of_nil in Hin);
        apply list_elem_of_singleton in Hin as ->; [by auto|].
      apply Z.eqb_eq in E as ->. auto. }
    by constructor.
  - destruct (at_boundary w _) eqn:E; [|by apply elem_of_nil in Hin].
    apply list_elem_of_singleton in Hin as ->. by constructor.
Qed.

(** ... and every match is listed. *)
Lemma run_complete r st st' : matches r st st' → st' ∈ run r st.
Proof.
  induction 1 as [st|p c sn td cs Hc|p w sn td cs Hw
                  |r1 r2 st mid st' _ IH1 _ IH2
                  |r1 r2 st st' _ IH|r1 r2 st st' _ IH
                  |r st st' _ IH|r st|n r st st' _ IH|td cs|st H|w st H];
    simpl.
  - by left.
  - rewrite Hc. by left.
  - apply list_elem_of_fmap. eexists (_, _). split; [done|].
    by apply star_complete.
  - apply list_elem_of_bind. eauto.
  - apply elem_of_app. auto.
  - apply elem_of_app. auto.
  - apply elem_of_app. auto.
  - apply elem_of_app. right. by left.
  - apply list_elem_of_fmap. eauto.
  - by left.
  - destruct H as [-> | ->]; by left.
  - rewrite H. by left.
Qed.

(** [re.match] returns a match. *)
Lemma rematch_matches r s m : rematch r s = Some m → matches r (start s) m.
Proof. intros H%head_Some_elem_of. by apply run_sound. Qed.

(** A match moves text from [todo] to [seen], and the text it moves is
    made of characters of the classes of the pattern. *)
Lemma matches_reads r st st' :
  matches r st st' →
  ∃ w, seen st' = reverse w ++ seen st ∧ todo st = w ++ todo st'
       ∧ Forall (can_read r) w.
Proof.
  induction 1 as [st|p c sn td cs Hc|p w sn td cs Hw
                  |r1 r2 st mid st' _ IH1 _ IH2
                  |r1 r2 st st' _ IH|r1 r2 st st' _ IH
                  |r st st' _ IH|r st|n r st st' _ IH|td cs|st H|w st H];
    try (by exists []).
  - exists [c]. by repeat constructor.
  - by exists w.
  - destruct IH1 as (w1 & E1 & E1' & H1), IH2 as (w2 & E2 & E2' & H2).
    exists (w1 ++ w2). rewrite E2, E1, E1', E2', reverse_app, <-!app_assoc.
    split; [done|]. split; [done|]. apply Forall_app. split.
    + eapply Forall_impl; [done|]. by left.
    + eapply Forall_impl; [done|]. by right.
  - destruct IH as (w & ? & ? & H). exists w.
    split; [done|]. split; [done|]. eapply Forall_impl; [done|]. by left.
  - destruct IH as (w & ? & ? & H). exists w.
    split; [done|]. split; [done|]. eapply Forall_impl; [done|]. by right.
  - done.
  - done.
Qed.

Lemma matches_consumed r st st' :
  matches r st st' → Forall (can_read r) (consumed st st').
Proof.
  intros (w & E & _ & Hw)%matches_reads. unfold consumed. rewrite E.
  rewrite length_app, length_reverse.
  replace (length w + length (seen st) - length (seen st))%nat
    with (length w) by lia.
  rewrite take_app_length' by (by rewrite length_reverse).
  by rewrite reverse_involutive.
Qed.

(** The whole subject string stays what it is. *)
Lemma matches_subject r st st' : matches r st st' → subject st' = subject st.
Proof.
  intros (w & E & E' & _)%matches_reads. unfold subject.
  by rewrite E, E', reverse_app, reverse_involutive, <-app_assoc.
Qed.

(** A property of characters that holds all over the subject string holds
    of every group of every match in it. *)
Lemma matches_Forall (P : Z → Prop) r st st' :
  matches r st st' → state_all P st → state_all P st'.
Proof.
  induction 1 as [st|p c sn td cs Hc|p w sn td cs Hw
                  |r1 r2 st mid st' _ IH1 _ IH2
                  |r1 r2 st st' _ IH|r1 r2 st st' _ IH
                  |r st st' _ IH|r st|n r st st' H IH|td cs|st H|w st H];
    auto.
  - intros (Hs & [Hc1 Ht]%Forall_cons & Hcs). by repeat constructor.
  - intros (Hs & [Hw1 Ht]%Forall_app & Hcs). split; [|done].
    apply Forall_app. split; [by apply Forall_reverse | done].
  - intros Hst. destruct (IH Hst) as (Hs & Ht & Hcs).
    split; [done|]. split; [done|]. constructor; [|done].
    unfold consumed. by apply Forall_reverse, Forall_take.
Qed.

Lemma rematch_Forall (P : Z → Prop) r s m n :
  rematch r s = Some m → Forall P s → Forall P (group m n).
Proof.
  intros Hm%rematch_matches Hs.
  destruct (matches_Forall P _ _ _ Hm) as (_ & _ & Hc); [by repeat split|].
  unfold group.
  destruct (list_find _ _) as [[i [k g]]|] eqn:E; simpl; [|done].
  apply list_find_Some in E as (Hi & _ & _).
  rewrite Forall_forall in Hc.
  apply (Hc (k, g)). by eapply list_elem_of_lookup_2.
Qed.

(** What the classes of a group allow is all the group can hold. *)
Lemma matches_groups (Q : nat → Z → Prop) r st st' :
  matches r st st' → groups_read Q r →
  Forall (λ x, Forall (Q x.1) x.2) (caps st) →
  Forall (λ x, Forall (Q x.1) x.2) (caps st').
Proof.
  induction 1 as [st|p c sn td cs Hc|p w sn td cs Hw
                  |r1 r2 st mid st' _ IH1 _ IH2
                  |r1 r2 st st' _ IH|r1 r2 st st' _ IH
                  |r st st' _ IH|r st|n r st st' H IH|td cs|st H|w st H];
    simpl; auto; try (intros [HQ1 HQ2]; by auto).
  intros [Hn HQ] Hc. constructor; [|by auto].
  simpl. eapply Forall_impl; [by eapply matches_consumed | done].
Qed.

Lemma group_reads (Q : nat → Z → Prop) r s m n :
  groups_read Q r → rematch r s = Some m → Forall (Q n) (group m n).
Proof.
  intros HQ Hm%rematch_matches.
  pose proof (matches_groups Q _ _ _ Hm HQ (Forall_nil_2 _)) as Hc.
  unfold group. destruct (list_find _ _) as [[i [k g]]|] eqn:E; simpl; [|done].
  apply list_find_Some in E as (Hi & <- & _).
  rewrite Forall_forall in Hc.
  apply (Hc (k, g)). by eapply list_elem_of_lookup_2.
Qed.

(** Groups are recorded and never forgotten. *)
Lemma matches_caps_mono r st st' x :
  matches r st st' → x ∈ caps st → x ∈ caps st'.
Proof.
  induction 1 as [st|p c sn td cs Hc|p w sn td cs Hw
                  |r1 r2 st mid st' _ IH1 _ IH2
                  |r1 r2 st st' _ IH|r1 r2 st st' _ IH
                  |r st st' _ IH|r st|n r st st' H IH|td cs|st H|w st H];
    simpl; auto.
  intros Hx. right. auto.
Qed.

Lemma matches_takes n r st st' :
  matches r st st' → always_takes n r → ∃ g, (n, g) ∈ caps st'.
Proof.
  induction 1 as [st|p c sn td cs Hc|p w sn td cs Hw
                  |r1 r2 st mid st' H1 IH1 H2 IH2
                  |r1 r2 st st' _ IH|r1 r2 st st' _ IH
                  |r st st' _ IH|r st|k r st st' H IH|td cs|st H|w st H];
    simpl; try done.
  - intros [Hn|Hn]; [|by auto].
    destruct (IH1 Hn) as [g Hg]. exists g. by eapply matches_caps_mono.
  - intros [Hn _]. auto.
  - intros [_ Hn]. auto.
  - intros [->|Hn]; [eexists; by left|].
    destruct (IH Hn) as [g Hg]. exists g. by right.
Qed.

Lemma group_taken n r s m :
  always_takes n r → rematch r s = Some m → taken m n.
Proof.
  intros Hn Hm%rematch_matches.
  destruct (matches_takes n r _ _ Hm Hn) as [g Hg].
  unfold taken. eapply (list_find_elem_of _ _ (n, g)); done.
Qed.

End Matches.

(** ** The classifier *)

Section Classify.
Import PyStr Re RenameCommits.

Variable tbl : Z → bool.

Lemma TYPES_values : map_Forall (λ _ v, v ∈ canonical_types) TYPES.
Proof.
  unfold TYPES; simpl.
  repeat (apply map_Forall_insert_2;
          [by_evaluation|]).
  apply map_Forall_empty.
Qed.

Lemma types_get_canonical k : types_get k ∈ canonical_types.
Proof.
  unfold types_get. destruct (TYPES !! k) as [v|] eqn:E; simpl.
  - by apply (TYPES_values k v).
  - by_evaluation.
Qed.

(** Each canonical keyword is a key of [TYPES] that stands for itself, is in
    lowercase already, and is a non-empty word of ASCII letters. *)
Lemma canonical_fixed t :
  t ∈ canonical_types →
  TYPES !! t = Some t ∧ lower t = t
  ∧ ∃ c t', t = c :: t' ∧ Forall (λ c, ascii_letter c = true) t.
Proof.
  unfold canonical_types. intros H.
  repeat (apply elem_of_cons in H as [-> | H]);
    [..|by apply elem_of_nil in H];
    (split; [by vm_compute|]; split; [by vm_compute|]);
    eexists _, _; (split; [by vm_compute|]);
    by_evaluation.
Qed.

Lemma canonical_printable t :
  t ∈ canonical_types → Forall (λ c, 0x20 ≤ c < 0x7F) t.
Proof.
  unfold canonical_types. intros H.
  repeat (apply elem_of_cons in H as [-> | H]);
    [..|by apply elem_of_nil in H];
    by_evaluation.
Qed.

(** The groups [classify] reads take part in every match of the first
    pattern; the first one is a word of ASCII letters, which [lower_char]
    lowers as [str.lower] does, and the third one is free of line feeds. *)
Lemma typed_re_groups s m :
  rematch typed_re s = Some m →
  taken m 1 ∧ taken m 3
  ∧ Forall lowered_exactly (group m 1)
  ∧ Forall (λ c, dot c = true) (group m 3).
Proof.
  intros Hm.
  split; [eapply group_taken; [|done]; simpl; tauto|].
  split; [eapply group_taken; [|done]; simpl; tauto|].
  pose (Q := λ (n : nat) (c : Z),
          match n with
          | 1%nat => lowered_exactly c
          | 3%nat => dot c = true
          | _ => True
          end).
  assert (groups_read Q typed_re) as HQ.
  { simpl. unfold lowered_exactly. tauto. }
  split; [apply (group_reads Q _ _ _ 1%nat HQ Hm)
         | apply (group_reads Q _ _ _ 3%nat HQ Hm)].
Qed.

Lemma ichr_lowered a c :
  0x61 ≤ ord a ≤ 0x7A → ord a ≠ 0x6B → ichr a c = true → lowered_exactly c.
Proof. unfold ichr, lowered_exactly, ascii_letter. lia. Qed.

(** The same for the second pattern: its first group holds the letters of a
    prefix word, in either case or in one of the three forms the ignore-case
    literals [i] and [s] also match. *)
Lemma prefix_re_groups s m :
  rematch (prefix_re tbl) s = Some m →
  taken m 1 ∧ taken m 2
  ∧ Forall lowered_exactly (group m 1)
  ∧ Forall (λ c, dot c = true) (group m 2).
Proof.
  intros Hm.
  split; [eapply group_taken; [|done]; simpl; tauto|].
  split; [eapply group_taken; [|done]; simpl; tauto|].
  pose (Q := λ (n : nat) (c : Z),
          match n with
          | 1%nat => lowered_exactly c
          | 2%nat => dot c = true
          | _ => True
          end).
  assert (groups_read Q (prefix_re tbl)) as HQ.
  { cbn -[ichr]. repeat split; try done.
    intros c Hc.
    repeat (destruct Hc as [Hc|Hc]);
      (eapply ichr_lowered; [| |exact Hc]; by vm_compute). }
  split; [apply (group_reads Q _ _ _ 1%nat HQ Hm)
         | apply (group_reads Q _ _ _ 2%nat HQ Hm)].
Qed.

(** The shape of every result of [classify]: a canonical keyword, a colon
    and a space, and a trimmed remainder made of characters of the argument
    (or the fixed words of the default). *)
Lemma classify_shape s :
  ∃ t r, t ∈ canonical_types ∧ classify tbl s = t ++ lit ": " ++ r
         ∧ trimmed r
         ∧ ∀ P : Z → Prop, (∀ c, 0x20 ≤ c < 0x7F → P c) →
                             Forall P s → Forall P r.
Proof.
  unfold classify.
  destruct (rematch typed_re (strip s)) as [m|] eqn:E1.
  { eexists _, _. split; [apply types_get_canonical|].
    split; [done|]. split; [apply strip_trimmed|].
    intros P _ Hs. apply strip_Forall.
    eapply rematch_Forall; [done|]. by apply strip_Forall. }
  destruct (rematch (prefix_re tbl) (strip s)) as [m|] eqn:E2.
  { eexists _, _. split; [apply types_get_canonical|].
    split; [done|].
    destruct (strip (group m 2)) as [|c r] eqn:Er.
    - split; [apply strip_trimmed|]. intros P _ Hs. by apply strip_Forall.
    - rewrite <-Er. split; [apply strip_trimmed|].
      intros P _ Hs. apply strip_Forall.
      eapply rematch_Forall; [done|]. by apply strip_Forall. }
  destruct (strip s) as [|c s0] eqn:Es.
  - exists (lit "chore"), (lit "empty commit").
    split; [by_evaluation|].
    split; [done|]. split; [by vm_compute|].
    intros P HP _. apply Forall_forall. intros c Hc. apply HP.
    revert c Hc. apply Forall_forall.
    by_evaluation.
  - exists (lit "chore"), (c :: s0).
    split; [by_evaluation|].
    split; [done|]. rewrite <-Es. split; [apply strip_trimmed|].
    intros P _ Hs. by apply strip_Forall.
Qed.

Lemma classify_Forall (P : Z → Prop) s :
  (∀ c, 0x20 ≤ c < 0x7F → P c) → Forall P s → Forall P (classify tbl s).
Proof.
  intros HP Hs. destruct (classify_shape s) as (t & r & Ht & -> & _ & Hr).
  apply Forall_app. split.
  - eapply Forall_impl; [by apply canonical_printable | done].
  - apply Forall_app. split; [|by apply Hr].
    apply Forall_forall. intros c Hc. apply HP. revert c Hc.
    apply Forall_forall. by_evaluation.
Qed.

End Classify.

(** ** The first match *)

Section FirstMatch.
Import Re.

Lemma star_first p w : ∀ sn rest,
  Forall (λ c, p c = true) w →
  from_option p false (head rest) = false →
  ∃ l, star p sn (w ++ rest) = (reverse w ++ sn, rest) :: l.
Proof.
  induction w as [|c w IH]; intros sn rest Hw Hrest; simpl.
  - destruct rest as [|d rest]; simpl; [by exists []|].
    simpl in Hrest. rewrite Hrest. by exists [].
  - apply Forall_cons in Hw as [-> Hw].
    destruct (IH (c :: sn) rest Hw Hrest) as [l ->].
    eexists. by rewrite reverse_cons, <-app_assoc.
Qed.

Lemma first_star p w sn rest cs :
  Forall (λ c, p c = true) w →
  from_option p false (head rest) = false →
  head (run (Star p) (MState sn (w ++ rest) cs))
  = Some (MState (reverse w ++ sn) rest cs).
Proof.
  intros Hw Hrest. simpl.
  by destruct (star_first p w sn rest Hw Hrest) as [l ->].
Qed.

Lemma first_chr p c sn td cs :
  p c = true →
  head (run (Chr p) (MState sn (c :: td) cs)) = Some (MState (c :: sn) td cs).
Proof. intros Hc. simpl. by rewrite Hc. Qed.

Lemma first_seq r1 r2 st x y :
  head (run r1 st) = Some x → head (run r2 x) = Some y →
  head (run (Seq r1 r2) st) = Some y.
Proof.
  simpl. intros [l1 ->]%head_Some [l2 E2]%head_Some.
  by rewrite bind_cons, E2.
Qed.

Lemma first_plus p c w sn rest cs :
  p c = true → Forall (λ c, p c = true) w →
  from_option p false (head rest) = false →
  head (run (Plus p) (MState sn (c :: w ++ rest) cs))
  = Some (MState (reverse (c :: w) ++ sn) rest cs).
Proof.
  intros Hc Hw Hrest. eapply first_seq; [by apply first_chr|].
  rewrite first_star by done. by rewrite reverse_cons, <-app_assoc.
Qed.

Lemma first_group n r st x :
  head (run r st) = Some x →
  head (run (Group n r) st)
  = Some (MState (seen x) (todo x) ((n, consumed st x) :: caps x)).
Proof. simpl. by intros [l ->]%head_Some. Qed.

Lemma first_opt_skip r st : run r st = [] → head (run (Opt r) st) = Some st.
Proof. simpl. by intros ->. Qed.

Lemma consumed_app x sn td td' cs cs' :
  consumed (MState sn td cs) (MState (reverse x ++ sn) td' cs') = x.
Proof.
  unfold consumed; simpl.
  rewrite length_app, length_reverse.
  replace (length x + length sn - length sn)%nat with (length x) by lia.
  rewrite take_app_length' by (by rewrite length_reverse).
  apply reverse_involutive.
Qed.

End FirstMatch.

(** ** Matching an already classified subject *)

Section TypedMatch.
Import PyStr Re RenameCommits.

Lemma first_star_all p r sn cs :
  Forall (λ c, p c = true) r →
  head (run (Star p) (MState sn r cs)) = Some (MState (reverse r ++ sn) [] cs).
Proof.
  intros Hr. rewrite <-(app_nil_r r) at 1. by apply first_star.
Qed.

(** A word of ASCII letters, a colon, whitespace and a one-line remainder:
    the first pattern matches, with the word as group 1 and the remainder as
    group 3. *)
Lemma typed_re_match c t w r :
  Forall (λ c, ascii_letter c = true) (c :: t) →
  Forall (λ c, isspace c = true) w →
  Forall (λ c, dot c = true) r →
  from_option isspace false (head r) = false →
  ∃ m, rematch typed_re ((c :: t) ++ [0x3A] ++ w ++ r) = Some m
       ∧ group m 1 = c :: t ∧ group m 3 = r.
Proof.
  intros [Hc Ht]%Forall_cons Hw Hr Hhd.
  unfold rematch, typed_re, start. eexists. split.
  - eapply first_seq; [reflexivity|].
    eapply first_seq.
    { apply first_group. simpl app. by apply first_plus. }
    cbn [seen todo caps].
    eapply first_seq.
    { apply first_opt_skip. reflexivity. }
    eapply first_seq.
    { by apply first_chr. }
    eapply first_seq.
    { by apply first_star. }
    eapply first_seq.
    { apply first_group. by apply first_star_all. }
    reflexivity.
  - cbn [seen todo caps]. unfold group. simpl.
    split.
    + apply (consumed_app (c :: t) [] _ _ [] []).
    + apply consumed_app.
Qed.

End TypedMatch.

Section Idempotence.
Import PyStr Re RenameCommits.

Variable tbl : Z → bool.

Lemma letter_not_space c : ascii_letter c = true → isspace c = false.
Proof. unfold ascii_letter, isspace. lia. Qed.

Lemma classify_typed c t w r :
  c :: t ∈ canonical_types →
  Forall (λ c, isspace c = true) w →
  0x0A ∉ r → trimmed r →
  strip ((c :: t) ++ [0x3A] ++ w ++ r) = (c :: t) ++ [0x3A] ++ w ++ r →
  classify tbl ((c :: t) ++ [0x3A] ++ w ++ r) = (c :: t) ++ lit ": " ++ r.
Proof.
  intros Ht Hw Hr [Hhd Hlast] Hs.
  destruct (canonical_fixed _ Ht) as (Hk & Hlow & _ & _ & _ & Hl).
  destruct (typed_re_match c t w r) as (m & Hm & H1 & H3); [done | done | | done |].
  { apply Forall_forall. intros d Hd. unfold dot.
    destruct (d =? 10) eqn:E; [|done].
    apply Z.eqb_eq in E as ->. done. }
  unfold classify. rewrite Hs, Hm, H1, H3.
  rewrite Hlow. unfold types_get. rewrite Hk. simpl default.
  by rewrite trimmed_strip.
Qed.

(** [classify] reads its argument through [strip] only. *)
Lemma classify_strip s : classify tbl (strip s) = classify tbl s.
Proof. unfold classify. by rewrite strip_idemp. Qed.

Lemma classify_idempotent_on_line s :
  0x0A ∉ classify tbl s → classify tbl (classify tbl s) = classify tbl s.
Proof.
  destruct (classify_shape tbl s) as (t & r & Ht & E & Hr & _).
  rewrite E. intros Hnl.
  destruct (canonical_fixed _ Ht) as (_ & _ & c & t' & -> & Hl).
  assert (isspace c = false) as Hc.
  { apply letter_not_space. by apply Forall_cons in Hl as [? _]. }
  assert (0x0A ∉ r) as Hnr.
  { intros Hin. apply Hnl. rewrite !elem_of_app. auto. }
  destruct r as [|d r].
  - (* nothing after the colon: the space after it is stripped again *)
    assert (strip ((c :: t') ++ lit ": " ++ []) = (c :: t') ++ [0x3A] ++ [] ++ [])
      as Hs.
    { unfold strip. rewrite lstrip_id by (by simpl).
      change ((c :: t') ++ lit ": " ++ []) with ((c :: t') ++ 0x3A :: [0x20]).
      by rewrite rstrip_app_keep. }
    rewrite <-classify_strip, Hs.
    apply classify_typed; [done | done | done | done |].
    rewrite <-Hs at 1. by rewrite strip_idemp.
  - change ((c :: t') ++ lit ": " ++ d :: r)
      with ((c :: t') ++ [0x3A] ++ [0x20] ++ d :: r).
    apply classify_typed; [done | by repeat constructor | done | done |].
    apply trimmed_strip. destruct Hr as [_ Hlast]. split; [by simpl|].
    rewrite !last_app.
    destruct (last (d :: r)) eqn:El; [done | by apply last_None in El].
Qed.

End Idempotence.

(** ** The subject line *)

Section Subject.
Import PyStr Re RenameCommits.

Lemma single_spaced_app_l a b : single_spaced (a ++ b) → single_spaced a.
Proof.
  induction a as [|c a IH]; simpl; [done|].
  intros [Hc Hs]. split; [|by apply IH].
  intros Hsp. destruct (Hc Hsp) as [-> Hn]. split; [done|].
  destruct a; [done | by simpl in *].
Qed.

Lemma single_spaced_app_r a b : single_spaced (a ++ b) → single_spaced b.
Proof. induction a as [|c a IH]; simpl; [done|]. intros [_ Hs]. by apply IH. Qed.

Lemma single_spaced_strip s : single_spaced s → single_spaced (strip s).
Proof.
  intros H. destruct (strip_split s) as (w1 & w2 & E & _ & _).
  rewrite E in H. by apply single_spaced_app_r, single_spaced_app_l in H.
Qed.

Lemma single_spaced_take n s : single_spaced s → single_spaced (take n s).
Proof.
  intros H. rewrite <-(take_drop n s) in H. by apply single_spaced_app_l in H.
Qed.

(** After the substitution every run of whitespace is one space. *)
Lemma sub_plus_from_spaced s : ∀ inrun,
  single_spaced (sub_plus_from isspace (lit " ") inrun s)
  ∧ (inrun = true →
     from_option isspace false
       (head (sub_plus_from isspace (lit " ") inrun s)) = false).
Proof.
  induction s as [|c s IH]; intros inrun; simpl; [done|].
  destruct (isspace c) eqn:Hc.
  - destruct inrun; [apply IH|].
    destruct (IH true) as [Hs Hh]. split; [|done].
    simpl. split; [|done]. intros _. split; [done | by apply Hh].
  - destruct (IH false) as [Hs _]. split; [|by simpl].
    simpl. split; [|done]. intros Hsp. congruence.
Qed.

Lemma sub_plus_spaced s : single_spaced (sub_plus isspace (lit " ") s).
Proof. apply sub_plus_from_spaced. Qed.

Lemma sub_plus_from_Forall (P : Z → Prop) repl s : ∀ inrun,
  Forall P repl → Forall P s → Forall P (sub_plus_from isspace repl inrun s).
Proof.
  induction s as [|c s IH]; intros inrun Hr Hs; simpl; [done|].
  apply Forall_cons in Hs as [Hc Hs].
  destruct (isspace c), inrun; auto using Forall_app_2.
Qed.

Lemma normalize_subject_Forall tbl (P : Z → Prop) s :
  (∀ c, 0x20 ≤ c < 0x7F → P c) → Forall P s →
  Forall P (normalize_subject tbl s).
Proof.
  intros HP Hs. unfold normalize_subject, slice_to.
  apply Forall_take, strip_Forall, sub_plus_from_Forall.
  - repeat constructor. apply HP. done.
  - by apply classify_Forall.
Qed.

End Subject.

(** ** The codec *)

Section Codec.
Import Utf8.

Lemma value_range b : 0 ≤ value b ≤ 255.
Proof. unfold value. pose proof (Byte.to_N_bounded b). lia. Qed.

Lemma cont_range b : cont b = true → 0x80 ≤ b ≤ 0xBF.
Proof. unfold cont. lia. Qed.

Lemma shiftl_mul b n : 0 ≤ n → Z.shiftl b n = b * 2 ^ n.
Proof. apply Z.shiftl_mul_pow2. Qed.

(** Whatever the bytes, the decoder yields scalar values only. *)
Lemma decode_values_scalar n : ∀ bs,
  (length bs ≤ n)%nat → Forall (λ b, 0 ≤ b ≤ 255) bs →
  Forall scalar (decode_values bs).
Proof.
  assert (scalar REPLACEMENT) as Hrep by (unfold scalar, REPLACEMENT; lia).
  induction n as [|n IH]; intros bs Hn Hbs.
  { destruct bs; [constructor | simpl in Hn; lia]. }
  destruct bs as [|b1 t1]; [constructor|]. simpl in Hn.
  apply Forall_cons in Hbs as [H1 Ht1]. simpl.
  assert (Forall scalar (decode_values t1)) as IH1 by (apply IH; [lia | done]).
  destruct (b1 <? 0x80) eqn:E1.
  { constructor; [unfold scalar; lia | done]. }
  destruct (b1 <? 0xC2) eqn:E2; [by constructor|].
  destruct (b1 <? 0xE0) eqn:E3.
  { destruct t1 as [|b2 t2]; [by repeat constructor|]. simpl in Hn.
    apply Forall_cons in Ht1 as [H2 Ht2].
    destruct (cont b2) eqn:C2; [|by constructor].
    apply cont_range in C2.
    constructor; [|apply IH; [lia | done]].
    unfold scalar, cp2. rewrite !shiftl_mul by lia. lia. }
  destruct (b1 <? 0xF0) eqn:E4.
  { destruct t1 as [|b2 t2]; [by repeat constructor|]. simpl in Hn.
    apply Forall_cons in Ht1 as Ht1'. destruct Ht1' as [H2 Ht2].
    destruct (bad_second false b1 b2) eqn:B2; [by constructor|].
    destruct t2 as [|b3 t3]; [by repeat constructor|]. simpl in Hn.
    apply Forall_cons in Ht2 as Ht2'. destruct Ht2' as [H3 Ht3].
    destruct (cont b3) eqn:C3;
      [|constructor; [done | apply IH; [simpl; lia | done]]].
    apply cont_range in C3.
    constructor; [|apply IH; [lia | done]].
    unfold bad_second, cont in B2.
    unfold scalar, cp3. rewrite !shiftl_mul by lia.
    destruct (b2 <? 0xA0) eqn:E6; lia. }
  destruct (b1 <? 0xF5) eqn:E5; [|by constructor].
  destruct t1 as [|b2 t2]; [by repeat constructor|]. simpl in Hn.
  apply Forall_cons in Ht1 as Ht1'. destruct Ht1' as [H2 Ht2].
  destruct (bad_second true b1 b2) eqn:B2; [by constructor|].
  destruct t2 as [|b3 t3]; [by repeat constructor|]. simpl in Hn.
  apply Forall_cons in Ht2 as Ht2'. destruct Ht2' as [H3 Ht3].
  destruct (cont b3) eqn:C3; cbn [negb];
    [|constructor; [done | apply IH; [simpl; lia | done]]].
  destruct t3 as [|b4 t4]; [by repeat constructor|]. simpl in Hn.
  apply Forall_cons in Ht3 as Ht3'. destruct Ht3' as [H4 Ht4].
  destruct (cont b4) eqn:C4;
    [|constructor; [done | apply IH; [simpl; lia | done]]].
  apply cont_range in C3, C4.
  constructor; [|apply IH; [lia | done]].
  unfold bad_second, cont in B2.
  unfold scalar, cp4. rewrite !shiftl_mul by lia.
  destruct (b2 <? 0x90) eqn:E6; lia.
Qed.

Lemma decode_scalar bs : Forall scalar (decode bs).
Proof.
  unfold decode. apply (decode_values_scalar (length (value <$> bs))); [done|].
  apply Forall_fmap, Forall_forall. intros b _. apply value_range.
Qed.

Lemma encode_char_scalar c : scalar c → is_Some (encode_char c).
Proof.
  unfold scalar, encode_char. intros H.
  repeat (match goal with |- context [if ?b then _ else _] =>
            destruct b eqn:? end); try done; lia.
Qed.

(** [encode] raises on surrogates only. *)
Lemma encode_scalar s : Forall scalar s → is_Some (encode s).
Proof.
  intros H. unfold encode.
  destruct (mapM_is_Some_2 encode_char s) as [l ->]; [|done].
  eapply Forall_impl; [done|]. apply encode_char_scalar.
Qed.

Lemma encode_app a b x y :
  encode a = Some x → encode b = Some y → encode (a ++ b) = Some (x ++ y).
Proof.
  unfold encode. intros Ha Hb.
  destruct (mapM encode_char a) as [la|] eqn:Ea; [|done].
  destruct (mapM encode_char b) as [lb|] eqn:Eb; [|done].
  simpl in Ha, Hb. injection Ha as <-. injection Hb as <-.
  apply mapM_Some in Ea, Eb.
  rewrite (mapM_Some_2 encode_char (a ++ b) (la ++ lb)) by (by apply Forall2_app).
  simpl. by rewrite concat_app, fmap_app.
Qed.

End Codec.

(** ** The codec: what [encode] writes, [decode] reads back *)

Section CodecFurther.
Import PyStr Utf8.

Lemma decode_1 b rest :
  0 ≤ b < 0x80 → decode_values (b :: rest) = b :: decode_values rest.
Proof. intros H. simpl. destruct (b <? 128) eqn:E; [done | lia]. Qed.

Lemma decode_2 b1 b2 rest :
  0xC2 ≤ b1 < 0xE0 → cont b2 = true →
  decode_values (b1 :: b2 :: rest) = cp2 b1 b2 :: decode_values rest.
Proof.
  intros H1 H2. cbn [decode_values].
  destruct (b1 <? 128) eqn:E1; [lia|].
  destruct (b1 <? 194) eqn:E2; [lia|].
  destruct (b1 <? 224) eqn:E3; [|lia].
  by rewrite H2.
Qed.

Lemma decode_3 b1 b2 b3 rest :
  0xE0 ≤ b1 < 0xF0 → bad_second false b1 b2 = false → cont b3 = true →
  decode_values (b1 :: b2 :: b3 :: rest) = cp3 b1 b2 b3 :: decode_values rest.
Proof.
  intros H1 H2 H3. cbn [decode_values].
  destruct (b1 <? 128) eqn:E1; [lia|].
  destruct (b1 <? 194) eqn:E2; [lia|].
  destruct (b1 <? 224) eqn:E3; [lia|].
  destruct (b1 <? 240) eqn:E4; [|lia].
  by rewrite H2, H3.
Qed.

Lemma decode_4 b1 b2 b3 b4 rest :
  0xF0 ≤ b1 < 0xF5 → bad_second true b1 b2 = false →
  cont b3 = true → cont b4 = true →
  decode_values (b1 :: b2 :: b3 :: b4 :: rest)
  = cp4 b1 b2 b3 b4 :: decode_values rest.
Proof.
  intros H1 H2 H3 H4. cbn [decode_values].
  destruct (b1 <? 128) eqn:E1; [lia|].
  destruct (b1 <? 194) eqn:E2; [lia|].
  destruct (b1 <? 224) eqn:E3; [lia|].
  destruct (b1 <? 240) eqn:E4; [lia|].
  destruct (b1 <? 245) eqn:E5; [|lia].
  by rewrite H2, H3, H4.
Qed.

(** Setting marker bits over a field that leaves them free adds them. *)
Lemma lor_marker hi n x :
  0 ≤ n → 0 ≤ x < 2 ^ n → Z.lor (hi * 2 ^ n) x = hi * 2 ^ n + x.
Proof.
  intros Hn [Hx0 Hx].
  assert (Z.land (hi * 2 ^ n) x = 0) as Hland.
  { apply Z.bits_inj'. intros i Hi. rewrite Z.land_spec, Z.bits_0.
    destruct (Z.lt_ge_cases i n) as [Hlt|Hge].
    - by rewrite Z.mul_pow2_bits_low.
    - destruct (Z.eq_dec x 0) as [->|Hne]; [by rewrite Z.bits_0, andb_false_r|].
      rewrite (Z.bits_above_log2 x i), andb_false_r; [done | done |].
      assert (Z.log2 x < n); [|lia]. apply Z.log2_lt_pow2; lia. }
  by rewrite <-Z.lxor_lor, <-Z.add_nocarry_lxor.
Qed.

Lemma lor_C0 q : 0 ≤ q < 32 → Z.lor 0xC0 q = 0xC0 + q.
Proof. apply (lor_marker 6 5 q). lia. Qed.
Lemma lor_80 q : 0 ≤ q < 64 → Z.lor 0x80 q = 0x80 + q.
Proof. apply (lor_marker 2 6 q). lia. Qed.
Lemma lor_E0 q : 0 ≤ q < 16 → Z.lor 0xE0 q = 0xE0 + q.
Proof. apply (lor_marker 14 4 q). lia. Qed.
Lemma lor_F0 q : 0 ≤ q < 8 → Z.lor 0xF0 q = 0xF0 + q.
Proof. apply (lor_marker 30 3 q). lia. Qed.

Lemma shiftr_div c n : 0 ≤ n → Z.shiftr c n = c / 2 ^ n.
Proof. apply Z.shiftr_div_pow2. Qed.

Lemma land_3F x : Z.land x 0x3F = x mod 64.
Proof. apply (Z.land_ones x 6). lia. Qed.

Lemma encode_char_decode c bs rest :
  encode_char c = Some bs →
  Forall (λ b, 0 ≤ b ≤ 255) bs
  ∧ decode_values (bs ++ rest) = c :: decode_values rest.
Proof.
  unfold encode_char.
  destruct (c <? 0) eqn:E0; [done|].
  destruct (c <? 128) eqn:E1.
  { intros [= <-]. split; [repeat constructor; lia|]. apply decode_1. lia. }
  rewrite !land_3F, !shiftr_div by lia.
  destruct (c <? 2048) eqn:E2.
  { intros [= <-].
    change (2 ^ 6) with 64.
    rewrite lor_C0, lor_80 by (Z.div_mod_to_equations; lia).
    split; [repeat constructor; Z.div_mod_to_equations; lia|].
    simpl app. rewrite decode_2.
    - f_equal. unfold cp2. rewrite !shiftl_mul by lia.
      Z.div_mod_to_equations; lia.
    - Z.div_mod_to_equations; lia.
    - unfold cont. Z.div_mod_to_equations; lia. }
  destruct ((55296 <=? c) && (c <=? 57343)) eqn:E3; [done|].
  destruct (c <? 65536) eqn:E4.
  { intros [= <-].
    change (2 ^ 6) with 64. change (2 ^ 12) with 4096.
    rewrite lor_E0, !lor_80 by (Z.div_mod_to_equations; lia).
    split; [repeat constructor; Z.div_mod_to_equations; lia|].
    simpl app. rewrite decode_3.
    - f_equal. unfold cp3. rewrite !shiftl_mul by lia.
      Z.div_mod_to_equations; lia.
    - Z.div_mod_to_equations; lia.
    - unfold bad_second, cont.
      destruct (128 + c / 64 mod 64 <? 160) eqn:E5;
        Z.div_mod_to_equations; lia.
    - unfold cont. Z.div_mod_to_equations; lia. }
  destruct (c <? 1114112) eqn:E5; [|done].
  intros [= <-].
  change (2 ^ 6) with 64. change (2 ^ 12) with 4096.
  change (2 ^ 18) with 262144.
  rewrite lor_F0, !lor_80 by (Z.div_mod_to_equations; lia).
  split; [repeat constructor; Z.div_mod_to_equations; lia|].
  simpl app. rewrite decode_4.
  - f_equal. unfold cp4. rewrite !shiftl_mul by lia.
    Z.div_mod_to_equations; lia.
  - Z.div_mod_to_equations; lia.
  - unfold bad_second, cont.
    destruct (128 + c / 4096 mod 64 <? 144) eqn:E6;
      Z.div_mod_to_equations; lia.
  - unfold cont. Z.div_mod_to_equations; lia.
  - unfold cont. Z.div_mod_to_equations; lia.
Qed.

Lemma value_byte_of z : 0 ≤ z ≤ 255 → value (byte_of z) = z.
Proof.
  intros Hz. unfold value, byte_of.
  pose proof (Byte.to_of_N_option_map (Z.to_N z)) as H.
  destruct (Byte.of_N (Z.to_N z)) as [b|]; simpl in *.
  - destruct (N.leb (Z.to_N z) 255); [|done]. injection H as ->. lia.
  - destruct (N.leb (Z.to_N z) 255) eqn:E; [done|].
    apply N.leb_gt in E. lia.
Qed.

Lemma encode_chars_decode s l :
  Forall2 (λ c bs, encode_char c = Some bs) s l →
  Forall (λ b, 0 ≤ b ≤ 255) (concat l) ∧ decode_values (concat l) = s.
Proof.
  induction 1 as [|c bs s l Hc _ [IH1 IH2]]; [done|]. simpl.
  destruct (encode_char_decode c bs (concat l) Hc) as [Hr Hd].
  split; [by apply Forall_app | by rewrite Hd, IH2].
Qed.

(** Decoding what [encode] returned gives the text back. *)
Lemma decode_encode s bs : encode s = Some bs → decode bs = s.
Proof.
  unfold encode, decode.
  destruct (mapM encode_char s) as [l|] eqn:E; [|done]. intros [= <-].
  apply mapM_Some, encode_chars_decode in E as [Hr Hd].
  rewrite <-list_fmap_compose.
  rewrite (list_fmap_ext (value ∘ byte_of) id (concat l));
    [by rewrite list_fmap_id|].
  intros i z Hz. simpl. apply value_byte_of.
  rewrite Forall_forall in Hr. apply Hr. by eapply list_elem_of_lookup_2.
Qed.

(** The encoding of a text made of two parts is the encoding of the one
    followed by the encoding of the other. *)
Lemma encode_app_inv a b x :
  encode (a ++ b) = Some x →
  ∃ xa xb, encode a = Some xa ∧ encode b = Some xb ∧ x = xa ++ xb.
Proof.
  unfold encode. intros H.
  destruct (mapM encode_char (a ++ b)) as [l|] eqn:E; [|done].
  simpl in H. injection H as <-.
  apply mapM_Some in E. apply Forall2_app_inv_l in E as (la & lb & Ha & Hb & ->).
  rewrite (mapM_Some_2 encode_char a la Ha), (mapM_Some_2 encode_char b lb Hb).
  eexists _, _. split; [done|]. split; [done|].
  simpl. by rewrite concat_app, fmap_app.
Qed.

End CodecFurther.

(** ** The message *)

Section Message.
Import PyStr Re RenameCommits Utf8.

Lemma split_once_notin sep s : sep ∉ s → split_once sep s = (s, []).
Proof.
  induction s as [|c s IH]; simpl; [done|].
  intros Hn. apply not_elem_of_cons in Hn as [Hc Hs].
  destruct (c =? sep) eqn:E; [apply Z.eqb_eq in E; congruence|].
  by rewrite IH.
Qed.

Lemma split_once_in sep s :
  sep ∈ s → s = (split_once sep s).1 ++ sep :: (split_once sep s).2.
Proof.
  induction s as [|c s IH]; simpl; [by intros ?%elem_of_nil|].
  intros Hin. destruct (c =? sep) eqn:E.
  - apply Z.eqb_eq in E as ->. done.
  - apply elem_of_cons in Hin as [->|Hin]; [by rewrite Z.eqb_refl in E|].
    specialize (IH Hin). destruct (split_once sep s) as [a b]; simpl in *.
    by rewrite IH at 1.
Qed.

Lemma split_once_first sep s : sep ∉ (split_once sep s).1.
Proof.
  induction s as [|c s IH]; simpl; [by intros ?%elem_of_nil|].
  destruct (c =? sep) eqn:E; [by intros ?%elem_of_nil|].
  destruct (split_once sep s) as [a b]; simpl in *.
  intros [->|Hin]%elem_of_cons; [by rewrite Z.eqb_refl in E | done].
Qed.

(** The code splits at the first line feed when there is one, and takes the
    whole text as the first line when there is none; [split_once] alone
    says the same. *)
Lemma split_guard text :
  (if contains_char 0x0A text then split_once 0x0A text else (text, []))
  = (first_line text, after_first_line text).
Proof.
  unfold contains_char, first_line, after_first_line.
  case_bool_decide as H.
  - by destruct (split_once 10 text).
  - by rewrite split_once_notin.
Qed.

Lemma rename_message_unfold tbl message :
  rename_message tbl message =
    let text := strip (decode message) in
    let subj := normalize_subject tbl (first_line text) in
    match strip (after_first_line text) with
    | [] => encode subj
    | body => encode (subj ++ [0x0A; 0x0A] ++ body)
    end.
Proof.
  destruct message as [|b message]; [by vm_compute|].
  unfold rename_message. cbv zeta. rewrite split_guard.
  destruct (after_first_line _) as [|c rest]; [done|].
  by destruct (strip (c :: rest)).
Qed.

Lemma normalize_subject_scalar tbl s :
  Forall scalar s → Forall scalar (normalize_subject tbl s).
Proof.
  apply normalize_subject_Forall. intros c Hc. unfold scalar. lia.
Qed.

Lemma first_line_Forall (P : Z → Prop) s : Forall P s → Forall P (first_line s).
Proof.
  intros H. unfold first_line. destruct (decide (0x0A ∈ s)) as [Hin|Hn].
  - rewrite (split_once_in _ _ Hin) in H. by apply Forall_app in H as [? _].
  - by rewrite split_once_notin.
Qed.

Lemma after_first_line_Forall (P : Z → Prop) s :
  Forall P s → Forall P (after_first_line s).
Proof.
  intros H. unfold after_first_line. destruct (decide (0x0A ∈ s)) as [Hin|Hn].
  - rewrite (split_once_in _ _ Hin) in H.
    by apply Forall_app in H as [_ [_ ?]%Forall_cons].
  - by rewrite split_once_notin.
Qed.

End Message.

(** ** Occurrences of a fragment *)

Section Occurrences.
Import PyStr.

Lemma startswith_app p s : startswith p (p ++ s) = true.
Proof. induction p as [|c p IH]; simpl; [done|]. by rewrite Z.eqb_refl. Qed.

Lemma startswith_split p : ∀ s,
  startswith p s = true → s = p ++ drop (length p) s.
Proof.
  induction p as [|c p IH]; intros [|d s]; simpl; try done.
  intros [->%Z.eqb_eq H]%andb_prop. f_equal. by apply IH.
Qed.

Lemma startswith_app_l p : ∀ a s,
  startswith p a = true → startswith p (a ++ s) = true.
Proof.
  induction p as [|c p IH]; intros [|d a] s; simpl; try done.
  intros [-> H]%andb_prop. by rewrite (IH _ _ H).
Qed.

Lemma startswith_app_inv p : ∀ a s,
  startswith p (a ++ s) = true →
  startswith p a = true
  ∨ ((length a < length p)%nat ∧ startswith a p = true
     ∧ startswith (drop (length a) p) s = true).
Proof.
  induction p as [|c p IH]; intros a s H; [by left|].
  destruct a as [|d a]; simpl in *.
  - right. split; [lia | done].
  - apply andb_prop in H as [Hc H]. rewrite Hc. simpl.
    destruct (IH _ _ H) as [?|(? & ? & ?)]; [by left|].
    right. apply Z.eqb_eq in Hc as ->. rewrite Z.eqb_refl.
    split; [lia | done].
Qed.

Lemma compat_sym p q : compat p q = compat q p.
Proof. apply orb_comm. Qed.

Lemma startswith_compat q x s : startswith q (x ++ s) = true → compat q x = true.
Proof.
  intros H. unfold compat.
  destruct (startswith_app_inv _ _ _ H) as [->|(_ & -> & _)];
    [done | apply orb_true_r].
Qed.

Lemma misfit_at from q y j :
  misfit from q y = true → (from ≤ j < length y)%nat →
  compat q (drop j y) = false.
Proof.
  unfold misfit. rewrite forallb_forall. intros H Hj.
  apply negb_true_iff, H, in_seq. lia.
Qed.

Lemma occurrences_app p a s :
  occurrences p (a ++ s) = (occurrences_upto p a s + occurrences p s)%nat.
Proof.
  induction a as [|c a IH]; [done|].
  simpl occurrences_upto. rewrite <-Nat.add_assoc, <-IH. done.
Qed.

(** No occurrence of [p] straddles the border between [a] and [x]. *)
Lemma occurrences_upto_border p x a s :
  misfit 1 x p = true →
  occurrences_upto p a (x ++ s) = occurrences_upto p a [].
Proof.
  intros Hm. induction a as [|c a IH]; [done|].
  simpl occurrences_upto. rewrite IH. f_equal.
  rewrite app_nil_r. change (c :: a ++ x ++ s) with ((c :: a) ++ x ++ s).
  destruct (startswith p ((c :: a) ++ x ++ s)) eqn:E.
  - destruct (startswith_app_inv _ _ _ E) as [->|(Hl & _ & H)]; [done|].
    apply startswith_compat in H. rewrite compat_sym in H.
    rewrite (misfit_at 1 x p (length (c :: a))) in H; [done | done |].
    simpl in *. lia.
  - destruct (startswith p (c :: a)) eqn:E'; [|done].
    by rewrite (startswith_app_l _ _ (x ++ s) E') in E.
Qed.

(** No occurrence of [p] starts inside [y]. *)
Lemma occurrences_upto_none p y s :
  (∀ j, (j < length y)%nat → compat p (drop j y) = false) →
  occurrences_upto p y s = 0%nat.
Proof.
  induction y as [|c y IH]; intros H; [done|].
  simpl occurrences_upto. change (c :: y ++ s) with ((c :: y) ++ s).
  rewrite IH.
  - destruct (startswith p ((c :: y) ++ s)) eqn:E; [|done].
    apply startswith_compat in E.
    change (c :: y) with (drop 0 (c :: y)) in E.
    rewrite (H 0%nat) in E; [done | simpl; lia].
  - intros j Hj. apply (H (S j)). simpl. lia.
Qed.

Lemma occurrences_upto_misfit p y s :
  misfit 0 p y = true → occurrences_upto p y s = 0%nat.
Proof.
  intros Hm. apply occurrences_upto_none. intros j Hj.
  apply (misfit_at 0 p y j Hm). lia.
Qed.

(** A fragment that does not overlap itself occurs once in itself. *)
Lemma occurrences_upto_self p s :
  p ≠ [] → misfit 1 p p = true → occurrences_upto p p s = 1%nat.
Proof.
  intros Hp Hm. destruct p as [|c p]; [done|].
  simpl occurrences_upto.
  rewrite startswith_app, Z.eqb_refl, occurrences_upto_none; [done|].
  intros j Hj. apply (misfit_at 1 (c :: p) (c :: p) (S j) Hm). simpl. lia.
Qed.

Lemma find_None p s : find p s = None ↔ occurrences p s = 0%nat.
Proof.
  induction s as [|c s IH]; simpl.
  - destruct (startswith p []); split; intros; done || lia.
  - destruct (startswith p (c :: s)).
    + split; intros; done || lia.
    + simpl. rewrite <-IH. by destruct (find p s).
Qed.

Lemma find_Some p s i :
  find p s = Some i → s = take i s ++ p ++ drop (i + length p) s.
Proof.
  revert i. induction s as [|c s IH]; intros i; simpl.
  - destruct (startswith p []) eqn:E; [|done].
    intros [= <-]. by apply startswith_split in E.
  - destruct (startswith p (c :: s)) eqn:E.
    + intros [= <-]. by apply startswith_split in E.
    + destruct (find p s) as [j|] eqn:Ej; [|done]. simpl.
      intros [= <-]. simpl. f_equal. by apply IH.
Qed.

Lemma contains_occurrences p s :
  contains p s = false ↔ occurrences p s = 0%nat.
Proof.
  unfold contains. rewrite <-find_None, bool_decide_eq_false.
  rewrite <-eq_None_not_Some. done.
Qed.

End Occurrences.

(** ** The patcher *)

Section Patcher.
Import PyStr UpdateLemonUpsert.

Lemma find_le p s i : find p s = Some i → (i ≤ length s)%nat.
Proof.
  revert i. induction s as [|c s IH]; intros i; simpl.
  - destruct (startswith p []); [|done]. intros [= <-]. lia.
  - destruct (startswith p (c :: s)); [intros [= <-]; lia|].
    destruct (find p s) as [j|]; [|done]. simpl.
    intros [= <-]. specialize (IH j eq_refl). lia.
Qed.

Lemma occurrences_pos p s : startswith p s = true → (0 < occurrences p s)%nat.
Proof. intros H. destruct s; simpl in *; rewrite H; lia. Qed.

(** [sub in s] says that [s] has [sub] as a contiguous part. *)
Lemma contains_iff p s : contains p s = true ↔ ∃ a b, s = a ++ p ++ b.
Proof.
  unfold contains. rewrite bool_decide_eq_true. split.
  - intros [i Hi]. apply find_Some in Hi. eauto.
  - intros (a & b & ->). apply not_eq_None_Some. rewrite find_None.
    rewrite occurrences_app.
    pose proof (occurrences_pos p (p ++ b) (startswith_app p b)). lia.
Qed.

(** Neither fragment overlaps itself or the other one: wherever two of
    their occurrences share a character, they are the same occurrence of the
    same fragment.  Checked by running over the indices of both. *)
Lemma fragments_apart :
  misfit 1 needle needle = true
  ∧ misfit 0 needle replacement = true
  ∧ misfit 0 replacement needle = true
  ∧ misfit 1 replacement replacement = true
  ∧ misfit 1 needle replacement = true
  ∧ misfit 1 replacement needle = true.
Proof. by vm_compute. Qed.

(** Putting the replacement in place of an occurrence of the needle takes
    that occurrence away, adds one of the replacement, and neither makes nor
    breaks any other occurrence. *)
Lemma patch_counts a b :
  occurrences needle (a ++ needle ++ b)
  = S (occurrences needle (a ++ replacement ++ b))
  ∧ occurrences replacement (a ++ replacement ++ b)
    = S (occurrences replacement (a ++ needle ++ b)).
Proof.
  destruct fragments_apart as (Hnn & Hnr & Hrn & Hrr & Hnr1 & Hrn1).
  rewrite !occurrences_app.
  rewrite (occurrences_upto_border needle needle) by done.
  rewrite (occurrences_upto_border needle replacement) by done.
  rewrite (occurrences_upto_border replacement replacement) by done.
  rewrite (occurrences_upto_border replacement needle) by done.
  rewrite (occurrences_upto_self needle), (occurrences_upto_self replacement)
    by done.
  rewrite (occurrences_upto_misfit needle replacement) by done.
  rewrite (occurrences_upto_misfit replacement needle) by done.
  lia.
Qed.

Lemma run_found text i :
  find needle text = Some i →
  run text = Outcome Finished [take i text ++ replacement
                                ++ drop (i + length needle) text]
               (take i text ++ replacement ++ drop (i + length needle) text).
Proof.
  intros Hi. unfold run, contains, replace_first. rewrite Hi.
  by rewrite bool_decide_eq_true_2.
Qed.

Lemma run_missing text :
  contains needle text = false →
  run text = Outcome (SystemExit
                        (lit "upsert call not found in lemonsqueezy service"))
               [] text.
Proof. intros H. unfold run. by rewrite H. Qed.

End Patcher.

(** * The claims *)

Section Claims.
Import PyStr Re Utf8 RenameCommits AuthorRewrite UpdateLemonUpsert.

(** C1.  The classifier gives the results the specification lists for its
    five examples: a typed subject is kept, an upper-case or informal type
    is mapped to its canonical keyword, the empty subject becomes
    "chore: empty commit", and an untyped subject is filed under "chore". *)
Theorem classify_examples (tbl : Z → bool) :
  classify tbl (lit "feat: add login") = lit "feat: add login"
  ∧ classify tbl (lit "BUGFIX: patch leak") = lit "fix: patch leak"
  ∧ classify tbl (lit "Fix: nothing") = lit "fix: nothing"
  ∧ classify tbl (lit "") = lit "chore: empty commit"
  ∧ classify tbl (lit "random text") = lit "chore: random text".
Proof. repeat split; by vm_compute. Qed.

(** C2.  A commit whose author name is the target name, or whose author
    email is the target email, leaves the callback with the replacement
    name and email as its author; the same holds, on its own, of the
    committer. *)
Theorem callback_rewrites_matching (c : commit) :
  (author_name c = target_name ∨ author_email c = target_email →
   author_name (callback c) = new_name
   ∧ author_email (callback c) = new_email)
  ∧ (committer_name c = target_name ∨ committer_email c = target_email →
     committer_name (callback c) = new_name
     ∧ committer_email (callback c) = new_email).
Proof.
  unfold callback. split; intros H.
  - assert (bool_decide (author_name c = target_name)
            || bool_decide (author_email c = target_email) = true) as ->.
    { destruct H as [H|H]; rewrite (bool_decide_eq_true_2 _ H);
        [done | apply orb_true_r]. }
    by destruct (_ || _).
  - assert (bool_decide (committer_name c = target_name)
            || bool_decide (committer_email c = target_email) = true) as E.
    { destruct H as [H|H]; rewrite (bool_decide_eq_true_2 _ H);
        [done | apply orb_true_r]. }
    destruct (bool_decide (author_name c = target_name)
              || bool_decide (author_email c = target_email));
      simpl; by rewrite E.
Qed.

(** A commit by the target author, committed by somebody else under the
    target email. *)
Lemma callback_rewrites_matching_witness :
  let c := Commit target_name (blit "someone@example.org")
             (blit "Somebody Else") target_email in
  author_name (callback c) = new_name
  ∧ author_email (callback c) = new_email
  ∧ committer_name (callback c) = new_name
  ∧ committer_email (callback c) = new_email.
Proof.
  intros c. destruct (callback_rewrites_matching c) as [Ha Hc].
  destruct (Ha (or_introl eq_refl)) as [H1 H2].
  destruct (Hc (or_intror eq_refl)) as [H3 H4].
  exact (conj H1 (conj H2 (conj H3 H4))).
Defined.

(** C8.  A commit whose author name and email match neither target keeps
    both author fields through the callback, and a commit whose committer
    name and email match neither target keeps both committer fields. *)
Theorem callback_keeps_other (c : commit) :
  (author_name c ≠ target_name ∧ author_email c ≠ target_email →
   author_name (callback c) = author_name c
   ∧ author_email (callback c) = author_email c)
  ∧ (committer_name c ≠ target_name ∧ committer_email c ≠ target_email →
     committer_name (callback c) = committer_name c
     ∧ committer_email (callback c) = committer_email c).
Proof.
  unfold callback. split; intros [Hn He].
  - rewrite (bool_decide_eq_false_2 _ Hn), (bool_decide_eq_false_2 _ He).
    simpl. by destruct (_ || _).
  - destruct (bool_decide (author_name c = target_name)
              || bool_decide (author_email c = target_email)); simpl;
      by rewrite (bool_decide_eq_false_2 _ Hn), (bool_decide_eq_false_2 _ He).
Qed.

(** A commit of somebody else, by author and by committer. *)
Lemma callback_keeps_other_witness :
  let c := Commit (blit "Ada") (blit "ada@example.org")
             (blit "Bob") (blit "bob@example.org") in
  author_name (callback c) = author_name c
  ∧ author_email (callback c) = author_email c
  ∧ committer_name (callback c) = committer_name c
  ∧ committer_email (callback c) = committer_email c.
Proof.
  intros c. destruct (callback_keeps_other c) as [Ha Hc].
  destruct Ha as [H1 H2]; [split; by vm_compute|].
  destruct Hc as [H3 H4]; [split; by vm_compute|].
  exact (conj H1 (conj H2 (conj H3 H4))).
Defined.

(** C3, as the claim states it, fails: a file that holds the replacement
    fragment already, next to one occurrence of the expected fragment, holds
    the replacement twice after the run. *)
Lemma patch_single_replacement_counterexample :
  occurrences needle (replacement ++ needle) = 1%nat
  ∧ occurrences replacement (file (run (replacement ++ needle))) = 2%nat.
Proof. by vm_compute. Qed.

(** C3, amended.  When the file holds the expected fragment exactly once,
    the run finishes after one write that puts the replacement in the place
    of that (first) occurrence; afterwards the file holds the expected
    fragment nowhere and the replacement fragment once more than before,
    and a second run fails the presence check and leaves the file alone. *)
Theorem patch_replaces_the_occurrence (text : list Z) :
  occurrences needle text = 1%nat →
  ∃ a b,
    text = a ++ needle ++ b ∧ find needle text = Some (length a)
    ∧ run text = Outcome Finished [a ++ replacement ++ b]
                   (a ++ replacement ++ b)
    ∧ occurrences needle (file (run text)) = 0%nat
    ∧ occurrences replacement (file (run text))
      = S (occurrences replacement text)
    ∧ run (file (run text))
      = Outcome (SystemExit
                   (lit "upsert call not found in lemonsqueezy service"))
          [] (file (run text)).
Proof.
  intros Hone.
  destruct (find needle text) as [i|] eqn:Hi;
    [|apply find_None in Hi; lia].
  pose proof (find_Some _ _ _ Hi) as Hsplit.
  pose proof (find_le _ _ _ Hi) as Hle.
  pose proof (run_found _ _ Hi) as Hrun.
  set (a := take i text) in *.
  set (b := drop (i + length needle) text) in *.
  assert (length a = i) as Ha by (unfold a; rewrite length_take; lia).
  destruct (patch_counts a b) as [Hn Hr].
  exists a, b. rewrite Ha, Hrun. cbn [file].
  assert (occurrences needle (a ++ replacement ++ b) = 0%nat) as H0.
  { rewrite <-Hsplit in Hn. lia. }
  split; [done|]. split; [done|]. split; [done|]. split; [done|].
  split; [by rewrite Hr, <-Hsplit|].
  by apply run_missing, contains_occurrences.
Qed.

(** The call to patch, between an import line and the end of a function. *)
Lemma patch_replaces_the_occurrence_witness :
  let text := lines ["import { upsert } from './users';"] ++ needle
              ++ lines ["  });"; "}"] in
  occurrences needle text = 1%nat
  ∧ occurrences needle (file (run text)) = 0%nat
  ∧ occurrences replacement (file (run text)) = 1%nat.
Proof.
  intros text.
  assert (occurrences needle text = 1%nat) as H by (by vm_compute).
  destruct (patch_replaces_the_occurrence text H)
    as (a & b & _ & _ & _ & H0 & H1 & _).
  split; [exact H|]. split; [exact H0|].
  rewrite H1. by vm_compute.
Defined.

(** C4.  When the file does not hold the expected fragment, the run ends
    by [SystemExit] with the fixed message, hence with a status that is not
    zero, and it writes nothing: the file is as it was. *)
Theorem patch_aborts_without_fragment (text : list Z) :
  contains needle text = false →
  ended (run text)
  = SystemExit (lit "upsert call not found in lemonsqueezy service")
  ∧ exit_status (ended (run text)) ≠ 0
  ∧ writes (run text) = []
  ∧ file (run text) = text.
Proof. intros H. by rewrite (run_missing _ H). Qed.

(** A service file with another call. *)
Lemma patch_aborts_without_fragment_witness :
  let text := lines ["  await upsertUserFromSubscription({";
                     "    email,"; "  });"] in
  ended (run text)
  = SystemExit (lit "upsert call not found in lemonsqueezy service")
  ∧ exit_status (ended (run text)) ≠ 0
  ∧ writes (run text) = []
  ∧ file (run text) = text.
Proof.
  intros text. apply (patch_aborts_without_fragment text). by vm_compute.
Defined.

(** C5, as the claim states it, fails, whatever the table: a body that is
    not valid UTF-8 does not come back as it went in.  For the message of
    the specification's example with the single byte FF as its body, what
    follows the subject and the empty line is no part of the message: it is
    EF BF BD, the encoding of U+FFFD. *)
Lemma rename_message_verbatim_counterexample :
  ¬ ∃ tbl bb pre post,
      let message := blit "feat: x" ++ [x0a; x0a; xff] in
      rename_message tbl message = Some (blit "feat: x" ++ [x0a; x0a] ++ bb)
      ∧ message = pre ++ bb ++ post.
Proof.
  intros (tbl & bb & pre & post & Hout & Hmsg). cbv zeta in Hmsg.
  vm_compute in Hout. injection Hout as <-.
  assert (xef ∈ blit "feat: x" ++ [x0a; x0a; xff]) as Hin.
  { rewrite Hmsg. apply elem_of_app. right. apply elem_of_app. left. by left. }
  revert Hin. by_evaluation.
Qed.

(** C5, amended.  The message returned is the normalized subject of the
    first line alone when nothing but whitespace follows the first line, and
    otherwise the subject, an empty line and the body, which is the trimmed
    text after the first line feed, character for character as the decoded
    message has it.  When the message is valid UTF-8, the encoding of some
    text, the bytes of the body are a part of the message as it came in;
    bytes that are not valid UTF-8 come back as the encoding of U+FFFD.  No
    message makes [rename_message] raise.  The message of the
    specification's example comes back as it is. *)
Theorem rename_message_layout (tbl : Z → bool) (message : list byte) :
  let text := strip (decode message) in
  let subj := normalize_subject tbl (first_line text) in
  let body := strip (after_first_line text) in
  (∃ sb, encode subj = Some sb
         ∧ (body ≠ [] →
            ∃ bb, encode body = Some bb
                  ∧ rename_message tbl message
                    = Some (sb ++ [x0a; x0a] ++ bb))
         ∧ (body = [] → rename_message tbl message = Some sb))
  ∧ (∃ pre post, decode message = pre ++ body ++ post)
  ∧ (∀ t, encode t = Some message →
          ∃ bb pre post, encode body = Some bb ∧ message = pre ++ bb ++ post)
  ∧ rename_message tbl (blit "feat: x" ++ [x0a; x0a] ++ blit "some body")
    = Some (blit "feat: x" ++ [x0a; x0a] ++ blit "some body")
  ∧ rename_message tbl (blit "feat: x" ++ [x0a; x0a; xff])
    = Some (blit "feat: x" ++ [x0a; x0a; xef; xbf; xbd]).
Proof.
  intros text subj body.
  assert (Forall scalar text) as Htext by apply strip_Forall, decode_scalar.
  destruct (encode_scalar subj) as [sb Hsb].
  { by apply normalize_subject_scalar, first_line_Forall. }
  destruct (encode_scalar body) as [bb Hbb].
  { by apply strip_Forall, after_first_line_Forall. }
  assert (∃ pre post, decode message = pre ++ body ++ post) as Hpart.
  { destruct (strip_split (decode message)) as (w1 & w2 & E & _ & _).
    destruct (strip_split (after_first_line text)) as (w3 & w4 & E' & _ & _).
    fold text in E. fold body in E'.
    destruct (decide (0x0A ∈ text)) as [Hin|Hn].
    + apply split_once_in in Hin. fold (first_line text) in Hin.
      fold (after_first_line text) in Hin.
      exists (w1 ++ first_line text ++ 0x0A :: w3), (w4 ++ w2).
      rewrite E, Hin at 1. rewrite E' at 1.
      by rewrite <-!app_assoc, <-app_comm_cons, <-!app_assoc.
    + exists [], (decode message).
      unfold body, after_first_line. by rewrite split_once_notin. }
  split; [|split; [done|split; [|split; by vm_compute]]].
  - exists sb. split; [done|]. rewrite rename_message_unfold. cbv zeta.
    fold text. fold subj. fold body. split.
    + intros Hne. exists bb. split; [done|].
      destruct body as [|c body']; [done|].
      apply encode_app; [done|]. by apply (encode_app [0x0A; 0x0A]).
    + by intros ->.
  - intros t Ht. destruct Hpart as (pre & post & E).
    rewrite (decode_encode _ _ Ht) in E. rewrite E in Ht.
    apply encode_app_inv in Ht as (xa & x2 & _ & H2 & ->).
    apply encode_app_inv in H2 as (xb & xq & Hb & _ & ->).
    by exists xb, xa, xq.
Qed.

(** A message in valid UTF-8 whose body holds a letter of two bytes: the
    bytes of the body are a part of the message. *)
Lemma rename_message_layout_witness :
  let tbl := (λ _ : Z, false) in
  let message := blit "docs: menu" ++ [x0a; x0a; x63; x61; x66; xc3; xa9] in
  let t := lit "docs: menu" ++ [0x0A; 0x0A; 0x63; 0x61; 0x66; 0xE9] in
  encode t = Some message
  ∧ ∃ bb pre post,
      encode (strip (after_first_line (strip (decode message)))) = Some bb
      ∧ message = pre ++ bb ++ post.
Proof.
  intros tbl message t.
  assert (encode t = Some message) as Ht by (by vm_compute).
  split; [exact Ht|].
  destruct (rename_message_layout tbl message) as (_ & _ & Hv & _).
  exact (Hv t Ht).
Defined.

(** C6, as the claim states it, fails, whatever the table of alphanumeric
    characters: "Fixed bug" is classified as "chore: Fixed bug". *)
Lemma classify_fixed_bug_counterexample :
  ¬ ∃ tbl, classify tbl (lit "Fixed bug") ≠ lit "chore: Fixed bug".
Proof. intros [tbl H]. apply H. by vm_compute. Qed.

(** C6, amended.  [classify] returns "chore: Fixed bug" for "Fixed bug": the
    prefix word "Fix" counts only where a word ends after it, as it does in
    "Fix bug". *)
Theorem classify_fixed_bug (tbl : Z → bool) :
  classify tbl (lit "Fixed bug") = lit "chore: Fixed bug"
  ∧ classify tbl (lit "Fix bug") = lit "fix: bug".
Proof. split; by vm_compute. Qed.

(** C7.  A result of [classify] that is one line, which a subject is, is
    classified as itself; the result is one line whenever the argument is,
    as is the case of every subject [rename_message] passes: the first line
    of the message. *)
Theorem classify_idempotent (tbl : Z → bool) (s : list Z) :
  (0x0A ∉ classify tbl s →
   classify tbl (classify tbl s) = classify tbl s)
  ∧ (0x0A ∉ s → 0x0A ∉ classify tbl s).
Proof.
  split; [apply classify_idempotent_on_line|].
  intros Hs Hin.
  assert (Forall (λ c, c ≠ 0x0A) (classify tbl s)) as H.
  { apply classify_Forall; [lia|]. apply Forall_forall. by intros c Hc ->. }
  rewrite Forall_forall in H. by apply (H _ Hin).
Qed.

(** An informal type in capitals: the first pass makes "fix: patch leak" of
    it, the second leaves that alone. *)
Lemma classify_idempotent_witness :
  let tbl := (λ _ : Z, false) in
  let s := lit "BUGFIX: patch leak" in
  (0x0A ∉ classify tbl s)
  ∧ classify tbl (classify tbl s) = classify tbl s.
Proof.
  intros tbl s.
  assert (0x0A ∉ s) as Hs by (by_evaluation).
  destruct (classify_idempotent tbl s) as [Hidem Hline].
  split; [exact (Hline Hs) | exact (Hidem (Hline Hs))].
Defined.

(** C9, as the claim states it, fails, whatever the table: when the 120th
    character of the trimmed subject is a space followed by more text, the
    cut leaves that space at the end. *)
Lemma normalize_subject_counterexample :
  ¬ ∃ tbl, trimmed (normalize_subject tbl (replicate 112 0x61 ++ lit " b")).
Proof. intros [tbl [_ H]]. vm_compute in H. done. Qed.

(** C9, amended.  The subject is the first 120 characters of the classified
    line with its whitespace runs replaced by single spaces and then
    trimmed: its whitespace is single spaces, it does not begin with
    whitespace, it has at most 120 characters, and it does not end with
    whitespace either when the trimmed line fits in 120 characters. *)
Theorem normalize_subject_shape (tbl : Z → bool) (s : list Z) :
  let u := strip (sub_plus isspace (lit " ") (classify tbl s)) in
  let r := normalize_subject tbl s in
  r = take 120 u
  ∧ single_spaced r
  ∧ from_option isspace false (head r) = false
  ∧ (length r ≤ 120)%nat
  ∧ ((length u ≤ 120)%nat → trimmed r).
Proof.
  intros u r.
  assert (r = take 120 u) as Hr by done.
  destruct (strip_trimmed (sub_plus isspace (lit " ") (classify tbl s)))
    as [Hhd Hlast].
  fold u in Hhd, Hlast.
  split; [done|]. rewrite Hr. split.
  { apply single_spaced_take, single_spaced_strip, sub_plus_spaced. }
  split; [by destruct u|].
  split; [rewrite length_take; lia|].
  intros Hu. by rewrite take_ge.
Qed.

(** C10.  The values of [TYPES] are the ten canonical keywords, and every
    result of [classify] begins with one of them, a colon and a space. *)
Theorem classify_canonical_type (tbl : Z → bool) (s : list Z) :
  (∀ v, v ∈ canonical_types ↔ ∃ k, TYPES !! k = Some v)
  ∧ ∃ t rest, t ∈ canonical_types ∧ classify tbl s = t ++ lit ": " ++ rest.
Proof.
  split.
  - intros v. split.
    + intros Hv. exists v. by apply canonical_fixed.
    + intros [k Hk]. by apply (TYPES_values k v).
  - destruct (classify_shape tbl s) as (t & r & Ht & E & _). eauto.
Qed.

End Claims.

(** * Further properties of the scripts *)

(** ** [author_rewrite.py]: running the callback again, and what it leaves *)

Section AuthorRewriteFurther.
Import Utf8 AuthorRewrite.

(** The replacement identity is not the target identity. *)
Lemma new_is_not_target :
  bool_decide (new_name = target_name) = false
  ∧ bool_decide (new_email = target_email) = false.
Proof. by vm_compute. Qed.

(** What the callback does to each field, as a function of the two fields
    of its role. *)
Lemma callback_fields c :
  let a := bool_decide (author_name c = target_name)
           || bool_decide (author_email c = target_email) in
  let k := bool_decide (committer_name c = target_name)
           || bool_decide (committer_email c = target_email) in
  author_name (callback c) = (if a then new_name else author_name c)
  ∧ author_email (callback c) = (if a then new_email else author_email c)
  ∧ committer_name (callback c) = (if k then new_name else committer_name c)
  ∧ committer_email (callback c) = (if k then new_email else committer_email c).
Proof.
  unfold callback.
  destruct (bool_decide (author_name c = target_name)
            || bool_decide (author_email c = target_email));
    cbn [author_name author_email committer_name committer_email];
    destruct (bool_decide (committer_name c = target_name)
              || bool_decide (committer_email c = target_email)); done.
Qed.

Lemma commit_ext (x y : commit) :
  author_name x = author_name y → author_email x = author_email y →
  committer_name x = committer_name y →
  committer_email x = committer_email y → x = y.
Proof. destruct x, y; simpl. by intros -> -> -> ->. Qed.

(** X1.  Rewriting a history that was rewritten before changes nothing: the
    callback leaves a commit it has been run on as it is. *)
Theorem callback_idempotent (c : commit) : callback (callback c) = callback c.
Proof.
  destruct (callback_fields c) as (Ha1 & Ha2 & Hc1 & Hc2).
  destruct (callback_fields (callback c)) as (Ha1' & Ha2' & Hc1' & Hc2').
  assert (bool_decide (author_name (callback c) = target_name)
          || bool_decide (author_email (callback c) = target_email)
          = true → author_name (callback c) = new_name
                   ∧ author_email (callback c) = new_email) as Ha.
  { rewrite Ha1, Ha2.
    destruct (bool_decide (author_name c = target_name)
              || bool_decide (author_email c = target_email)) eqn:E;
      [done | intros H; by rewrite H in E]. }
  assert (bool_decide (committer_name (callback c) = target_name)
          || bool_decide (committer_email (callback c) = target_email)
          = true → committer_name (callback c) = new_name
                   ∧ committer_email (callback c) = new_email) as Hc.
  { rewrite Hc1, Hc2.
    destruct (bool_decide (committer_name c = target_name)
              || bool_decide (committer_email c = target_email)) eqn:E;
      [done | intros H; by rewrite H in E]. }
  apply commit_ext.
  - rewrite Ha1'.
    destruct (bool_decide (author_name (callback c) = target_name)
              || bool_decide (author_email (callback c) = target_email));
      [by destruct Ha | done].
  - rewrite Ha2'.
    destruct (bool_decide (author_name (callback c) = target_name)
              || bool_decide (author_email (callback c) = target_email));
      [by destruct Ha | done].
  - rewrite Hc1'.
    destruct (bool_decide (committer_name (callback c) = target_name)
              || bool_decide (committer_email (callback c) = target_email));
      [by destruct Hc | done].
  - rewrite Hc2'.
    destruct (bool_decide (committer_name (callback c) = target_name)
              || bool_decide (committer_email (callback c) = target_email));
      [by destruct Hc | done].
Qed.

(** X2.  After the callback neither name field is the target name and
    neither email field is the target email: none of the tests of the
    callback holds of the commit any more. *)
Theorem callback_clears_target (c : commit) :
  author_name (callback c) ≠ target_name
  ∧ author_email (callback c) ≠ target_email
  ∧ committer_name (callback c) ≠ target_name
  ∧ committer_email (callback c) ≠ target_email.
Proof.
  destruct new_is_not_target
    as [Hn%bool_decide_eq_false He%bool_decide_eq_false].
  destruct (callback_fields c) as (-> & -> & -> & ->).
  destruct (bool_decide (author_name c = target_name)
            || bool_decide (author_email c = target_email)) eqn:Ea;
    destruct (bool_decide (committer_name c = target_name)
              || bool_decide (committer_email c = target_email)) eqn:Ec;
    try apply orb_false_elim in Ea
      as [?%bool_decide_eq_false ?%bool_decide_eq_false];
    try apply orb_false_elim in Ec
      as [?%bool_decide_eq_false ?%bool_decide_eq_false];
    done.
Qed.

End AuthorRewriteFurther.

(** ** [update_lemon_upsert.py]: files with several occurrences *)

Section PatcherFurther.
Import PyStr UpdateLemonUpsert.

(** [find] returns the lowest index: the fragment occurs at no index before
    the one it returns. *)
Lemma find_lowest p s i j :
  find p s = Some i → (j < i)%nat → startswith p (drop j s) = false.
Proof.
  revert i j. induction s as [|c s IH]; intros i j; simpl.
  - destruct (startswith p []); [|done]. intros [= <-]. lia.
  - destruct (startswith p (c :: s)) eqn:E; [intros [= <-]; lia|].
    destruct (find p s) as [k|] eqn:Ek; [|done]. simpl. intros [= <-] Hj.
    destruct j as [|j]; [done|]. simpl. apply (IH k); [done | lia].
Qed.

(** X3.  The run replaces the first occurrence and no other: whenever the file
    holds the expected fragment, everything before and after its first
    occurrence is kept, the file then holds the expected fragment once less
    and the replacement fragment once more than before. *)
Theorem patch_replaces_first_only (text : list Z) :
  contains needle text = true →
  ∃ a b,
    text = a ++ needle ++ b
    ∧ (∀ j, (j < length a)%nat → startswith needle (drop j text) = false)
    ∧ file (run text) = a ++ replacement ++ b
    ∧ S (occurrences needle (file (run text))) = occurrences needle text
    ∧ occurrences replacement (file (run text))
      = S (occurrences replacement text).
Proof.
  unfold contains. rewrite bool_decide_eq_true. intros [i Hi].
  pose proof (find_Some _ _ _ Hi) as Hsplit.
  pose proof (find_le _ _ _ Hi) as Hle.
  pose proof (run_found _ _ Hi) as Hrun.
  set (a := take i text) in *.
  set (b := drop (i + length needle) text) in *.
  assert (length a = i) as Ha by (unfold a; rewrite length_take; lia).
  destruct (patch_counts a b) as [Hn Hr].
  exists a, b. rewrite Hrun. cbn [file].
  split; [done|]. split.
  { intros j Hj. apply (find_lowest _ _ i); [done | lia]. }
  split; [done|]. by rewrite <-Hn, Hr, <-Hsplit.
Qed.

(** A file with two unpatched calls: one run patches the first of them. *)
Lemma patch_replaces_first_only_witness :
  let text := needle ++ lines ["  });"] ++ needle in
  file (run text) = replacement ++ lines ["  });"] ++ needle
  ∧ occurrences needle text = 2%nat
  ∧ occurrences needle (file (run text)) = 1%nat.
Proof.
  intros text.
  assert (contains needle text = true) as H by (by vm_compute).
  destruct (patch_replaces_first_only text H) as (a & b & _ & _ & _ & Hn & _).
  assert (occurrences needle text = 2%nat) as H2 by (by vm_compute).
  split; [by vm_compute|]. split; [exact H2|].
  rewrite H2 in Hn. exact (eq_add_S _ _ Hn).
Defined.

(** X4.  The run finishes normally exactly when the expected fragment is a
    contiguous part of the file.  It then has written the file once, with
    the text the file holds afterwards; otherwise it has written nothing. *)
Theorem run_finishes_iff_fragment (text : list Z) :
  (ended (run text) = Finished ↔ ∃ a b, text = a ++ needle ++ b)
  ∧ (ended (run text) = Finished → writes (run text) = [file (run text)])
  ∧ (ended (run text) ≠ Finished →
     writes (run text) = [] ∧ file (run text) = text).
Proof.
  rewrite <-contains_iff. unfold run.
  destruct (contains needle text); simpl; by repeat split.
Qed.

End PatcherFurther.

(** ** [rename_commits.py]: the branches of [classify] *)

Section ClassifyFurther.
Import PyStr Re RenameCommits.

Variable tbl : Z → bool.

Lemma rstrip_spaces s w :
  Forall (λ c, isspace c = true) w → rstrip (s ++ w) = rstrip s.
Proof.
  intros Hw. unfold rstrip.
  by rewrite reverse_app, lstrip_spaces by (by apply Forall_reverse).
Qed.

Lemma strip_spaces w1 s w2 :
  Forall (λ c, isspace c = true) w1 → Forall (λ c, isspace c = true) w2 →
  strip (w1 ++ s ++ w2) = strip s.
Proof.
  intros H1 H2. unfold strip. rewrite lstrip_spaces by done.
  destruct (lstrip s) as [|c l] eqn:E.
  - apply lstrip_nil in E.
    rewrite lstrip_spaces by done.
    rewrite <-(app_nil_r w2), lstrip_spaces by done. done.
  - rewrite lstrip_app by (by rewrite E). rewrite E. by apply rstrip_spaces.
Qed.

(** X5.  Whitespace around a line does not matter to its classification. *)
Theorem classify_ignores_outer_space (w1 s w2 : list Z) :
  Forall (λ c, isspace c = true) w1 → Forall (λ c, isspace c = true) w2 →
  classify tbl (w1 ++ s ++ w2) = classify tbl s.
Proof.
  intros H1 H2.
  by rewrite <-classify_strip, strip_spaces, classify_strip.
Qed.

(** The two patterns can only match a text that begins with an ASCII
    letter. *)
Lemma typed_re_letter_first x m :
  rematch typed_re x = Some m →
  ∃ c td, x = c :: td ∧ ascii_letter c = true.
Proof.
  intros H%rematch_matches. unfold typed_re, Plus, start in H.
  inversion H as [| | |? ? ? ? ? HB H1| | | | | | | |]; subst; clear H.
  inversion HB; subst; clear HB.
  inversion H1 as [| | |? ? ? ? ? HG _| | | | | | | |]; subst; clear H1.
  inversion HG as [| | | | | | | |? ? ? ? HP| | |]; subst; clear HG.
  inversion HP as [| | |? ? ? ? ? HC _| | | | | | | |]; subst; clear HP.
  inversion HC; subst. eauto.
Qed.

Lemma ichr_letter a c :
  0x61 ≤ ord a ≤ 0x7A → ord a ≠ 0x69 → ord a ≠ 0x73 → ord a ≠ 0x6B →
  ichr a c = true → ascii_letter c = true.
Proof. unfold ichr, ascii_letter. lia. Qed.

Lemma prefix_re_letter_first x m :
  rematch (prefix_re tbl) x = Some m →
  ∃ c td, x = c :: td ∧ ascii_letter c = true.
Proof.
  intros H%rematch_matches. unfold start in H. cbn -[ichr] in H.
  inversion H as [| | |? ? ? ? ? HB H1| | | | | | | |]; subst; clear H.
  inversion HB; subst; clear HB.
  inversion H1 as [| | |? ? ? ? ? HG _| | | | | | | |]; subst; clear H1.
  inversion HG as [| | | | | | | |? ? ? ? HA| | |]; subst; clear HG.
  assert (∃ a c td, x = c :: td ∧ ichr a c = true
                    ∧ a ∈ String.list_ascii_of_string "wfdrtpbc")
    as (a & c & td & -> & Hc & Ha).
  { repeat match goal with
           | H : matches (Alt _ _) _ _ |- _ => inversion H; subst; clear H
           end;
      unfold iword in *; cbn -[ichr] in *;
      repeat match goal with
             | H : matches (Seq _ _) _ _ |- _ => inversion H; subst; clear H
             end;
      match goal with
      | H : matches (Chr (ichr ?a)) (MState [] x []) _ |- _ =>
          inversion H; subst; exists a; eexists _, _;
          (split; [done|]); (split; [done|]); by_evaluation
      end. }
  exists c, td. split; [done|].
  revert Hc. simpl in Ha.
  repeat (apply elem_of_cons in Ha as [-> | Ha]);
    [..|by apply elem_of_nil in Ha]; apply ichr_letter; by vm_compute.
Qed.

(** X6.  A line that does not begin with an ASCII letter (a digit, a bracket, a
    letter of another script, ...) is filed under "chore" as it is, with the
    whitespace around it removed. *)
Theorem classify_without_leading_letter (s : list Z) (c : Z) (rest : list Z) :
  strip s = c :: rest → ascii_letter c = false →
  classify tbl s = lit "chore: " ++ c :: rest.
Proof.
  intros Hs Hc. unfold classify. rewrite Hs.
  destruct (rematch typed_re (c :: rest)) as [m|] eqn:E1.
  { apply typed_re_letter_first in E1 as (? & ? & [= <- <-] & ?). congruence. }
  destruct (rematch (prefix_re tbl) (c :: rest)) as [m|] eqn:E2.
  { apply prefix_re_letter_first in E2 as (? & ? & [= <- <-] & ?). congruence. }
  done.
Qed.

Lemma first_opt_take r st x :
  head (run r st) = Some x → head (run (Opt r) st) = Some x.
Proof. simpl. by intros [l ->]%head_Some. Qed.

(** The first pattern on a word, a parenthesized scope, a colon,
    whitespace and a one-line remainder. *)
Lemma typed_re_match_scoped c t sc w r :
  Forall (λ c, ascii_letter c = true) (c :: t) →
  Forall (λ c, anybut ")" c = true) sc →
  Forall (λ c, isspace c = true) w →
  Forall (λ c, dot c = true) r →
  from_option isspace false (head r) = false →
  ∃ m, rematch typed_re
         ((c :: t) ++ [0x28] ++ sc ++ [0x29] ++ [0x3A] ++ w ++ r) = Some m
       ∧ group m 1 = c :: t ∧ group m 3 = r.
Proof.
  intros [Hc Ht]%Forall_cons Hsc Hw Hr Hhd.
  unfold rematch, typed_re, start. eexists. split.
  - eapply first_seq; [reflexivity|].
    eapply first_seq.
    { apply first_group. simpl app. by apply first_plus. }
    cbn [seen todo caps].
    eapply first_seq.
    { apply first_opt_take, first_group.
      eapply first_seq; [by apply first_chr|].
      eapply first_seq; [by apply first_star|].
      by apply first_chr. }
    cbn [seen todo caps].
    eapply first_seq.
    { by apply first_chr. }
    eapply first_seq.
    { by apply first_star. }
    eapply first_seq.
    { apply first_group. by apply first_star_all. }
    reflexivity.
  - cbn [seen todo caps]. unfold group. simpl.
    split.
    + apply (consumed_app (c :: t) [] _ _ [] []).
    + apply consumed_app.
Qed.

Lemma trimmed_typed_line pre w r :
  pre ≠ [] → from_option isspace false (head pre) = false →
  trimmed r → (r = [] → w = []) →
  trimmed (pre ++ [0x3A] ++ w ++ r).
Proof.
  intros Hpre Hhd [_ Hlast] Hw. split.
  - by destruct pre.
  - destruct r as [|d r].
    + rewrite (Hw eq_refl). simpl. by rewrite last_snoc.
    + rewrite !last_app.
      destruct (last (d :: r)) eqn:El; [done | by apply last_None in El].
Qed.

Lemma no_linefeed_dot r : 0x0A ∉ r → Forall (λ c, dot c = true) r.
Proof.
  intros Hr. apply Forall_forall. intros d Hd. unfold dot.
  destruct (d =? 10) eqn:E; [|done]. apply Z.eqb_eq in E as ->. done.
Qed.

(** X7.  A typed line, with or without a scope: the type word is looked up in
    [TYPES] in lowercase, the scope is dropped, and the remainder is kept.
    A word that is not a key of [TYPES] is filed under "chore", and the word
    is lost. *)
Theorem classify_typed_line (c : Z) (t sc w r : list Z) :
  Forall (λ c, ascii_letter c = true) (c :: t) →
  0x29 ∉ sc →
  Forall (λ c, isspace c = true) w →
  trimmed r → 0x0A ∉ r → (r = [] → w = []) →
  let result := types_get (lower (c :: t)) ++ lit ": " ++ r in
  classify tbl ((c :: t) ++ [0x3A] ++ w ++ r) = result
  ∧ classify tbl ((c :: t) ++ [0x28] ++ sc ++ [0x29] ++ [0x3A] ++ w ++ r)
    = result
  ∧ (TYPES !! lower (c :: t) = None → result = lit "chore: " ++ r).
Proof.
  intros Hl Hsc Hw Hr Hnl Hrw result.
  assert (isspace c = false) as Hc.
  { apply letter_not_space. by apply Forall_cons in Hl as [? _]. }
  pose proof (no_linefeed_dot r Hnl) as Hdot.
  destruct Hr as [Hhd Hlast].
  split; [|split].
  - destruct (typed_re_match c t w r) as (m & Hm & H1 & H3); try done.
    unfold classify.
    rewrite (trimmed_strip _ (trimmed_typed_line (c :: t) w r
               ltac:(done) Hc (conj Hhd Hlast) Hrw)).
    by rewrite Hm, H1, H3, (trimmed_strip r).
  - destruct (typed_re_match_scoped c t sc w r) as (m & Hm & H1 & H3);
      try done.
    { apply Forall_forall. intros d Hd. unfold anybut.
      destruct (d =? ord ")") eqn:E; [|done].
      apply Z.eqb_eq in E as ->. done. }
    unfold classify.
    replace ((c :: t) ++ [0x28] ++ sc ++ [0x29] ++ [0x3A] ++ w ++ r)
      with (((c :: t) ++ [0x28] ++ sc ++ [0x29]) ++ [0x3A] ++ w ++ r) in *
      by (by rewrite <-!app_assoc).
    rewrite (trimmed_strip _
               (trimmed_typed_line ((c :: t) ++ [0x28] ++ sc ++ [0x29]) w r
                  ltac:(done) Hc (conj Hhd Hlast) Hrw)).
    by rewrite Hm, H1, H3, (trimmed_strip r).
  - intros Hk. unfold result, types_get. by rewrite Hk.
Qed.

Lemma ichr_spelled b c (H : spelled_char b c) a :
  lower_letter a → lower_letter b → ichr a c = (ord a =? ord b).
Proof.
  unfold spelled_char, lower_letter in *. unfold ichr.
  destruct (ord a =? ord b) eqn:E; lia.
Qed.

Lemma iword_first (word : list ascii) : ∀ P y sn cs,
  word ≠ [] →
  Forall2 (λ a c, ichr a c = true) word P →
  head (run (iword_of word) (MState sn (P ++ y) cs))
  = Some (MState (reverse P ++ sn) y cs).
Proof.
  induction word as [|a word IH]; intros P y sn cs Hne H; [done|].
  inversion H as [|? c ? P' Hc HP]; subst.
  destruct word as [|b word].
  - inversion HP; subst. simpl. by rewrite Hc.
  - eapply first_seq; [by apply first_chr|].
    rewrite IH by done. by rewrite reverse_cons, <-app_assoc.
Qed.

Lemma iword_none1 a w c x sn cs :
  ichr a c = false → run (iword_of (a :: w)) (MState sn (c :: x) cs) = [].
Proof. intros H. destruct w; simpl; by rewrite H. Qed.

Lemma iword_none2 a b w c d x sn cs :
  ichr b d = false →
  run (iword_of (a :: b :: w)) (MState sn (c :: d :: x) cs) = [].
Proof.
  intros H. simpl. destruct (ichr a c); [|done]. simpl.
  rewrite app_nil_r. by apply iword_none1.
Qed.

Lemma first_alt_l r1 r2 st x :
  head (run r1 st) = Some x → head (run (Alt r1 r2) st) = Some x.
Proof. simpl. by intros [l ->]%head_Some. Qed.

Lemma first_alt_r r1 r2 st :
  run r1 st = [] → head (run (Alt r1 r2) st) = head (run r2 st).
Proof. simpl. by intros ->. Qed.

Lemma run_seq_none r1 r2 st : run r1 st = [] → run (Seq r1 r2) st = [].
Proof. simpl. by intros ->. Qed.

Lemma run_chr_none p sn y cs :
  from_option p false (head y) = false → run (Chr p) (MState sn y cs) = [].
Proof. destruct y as [|c y]; simpl; [done | by intros ->]. Qed.

Lemma isword_letter c : ascii_letter c = true → isword tbl c = true.
Proof.
  unfold isword, ascii_alnum, ascii_letter.
  destruct (c <? 128) eqn:E; [by intros -> | intros; exfalso; lia].
Qed.

Lemma isword_ends c : ends_word c = true → isword tbl c = false.
Proof.
  unfold isword, ends_word.
  destruct (c <? 128) eqn:E; [|done].
  destruct (ascii_alnum c || (c =? 95)); [done | done].
Qed.

Lemma spelled_char_letter a c :
  lower_letter a → spelled_char a c → ascii_letter c = true.
Proof. unfold lower_letter, spelled_char, ascii_letter. lia. Qed.

Lemma first_boundary w st :
  at_boundary w st = true → head (run (Boundary w) st) = Some st.
Proof. simpl. by intros ->. Qed.

Ltac ichr_value :=
  match goal with
  | H : spelled_char ?b ?c |- ichr ?a ?c = _ =>
      rewrite (ichr_spelled b c H a) by by_evaluation; by vm_compute
  end.

Ltac alt_fails :=
  unfold iword; simpl String.list_ascii_of_string;
  first [ apply iword_none1; ichr_value
        | apply iword_none2; ichr_value
        | apply run_seq_none; apply iword_none1; ichr_value ].

Lemma prefix_re_match word P sp r :
  word ∈ prefix_words → spelled word P →
  Forall (λ c, issep c = true) sp →
  from_option ends_word true (head (sp ++ r)) = true →
  Forall (λ c, dot c = true) r →
  from_option issep false (head r) = false →
  ∃ m, rematch (prefix_re tbl) (P ++ sp ++ r) = Some m
       ∧ group m 1 = P ∧ group m 2 = r.
Proof.
  intros Hword HP Hsp Hend Hr Hhd.
  assert (from_option (isword tbl) false (head (sp ++ r)) = false) as Hnw.
  { destruct (sp ++ r) as [|c0 y]; [done|]. by apply isword_ends. }
  assert (from_option (ichr "s") false (head (sp ++ r)) = false) as Hns.
  { destruct (sp ++ r) as [|c0 y]; [done|]. simpl in *.
    unfold ends_word, ascii_alnum, ascii_letter in Hend. unfold ichr.
    change (ord "s") with 115. lia. }
  unfold prefix_words in Hword.
  repeat (apply elem_of_cons in Hword as [-> | Hword]);
    [..|by apply elem_of_nil in Hword];
    unfold spelled in HP; simpl in HP;
    repeat match goal with
           | H : Forall2 _ (_ :: _) _ |- _ => inversion H; subst; clear H
           | H : Forall2 _ [] _ |- _ => inversion H; subst; clear H
           end;
    unfold rematch, prefix_re, start; eexists; split.
  all: lazymatch goal with
       | |- head _ = Some _ =>
           eapply first_seq; [reflexivity|];
           eapply first_seq;
             [ apply first_group;
               repeat (rewrite first_alt_r by alt_fails);
               try apply first_alt_l;
               first
                 [ apply iword_first; [done | repeat constructor; ichr_value]
                 | eapply first_seq;
                   [ apply (iword_first _ [_; _; _]);
                     [done | repeat constructor; ichr_value]
                   | first [ apply first_opt_take, first_chr; ichr_value
                           | apply first_opt_skip, run_chr_none, Hns ] ] ]
             | ];
           cbn [seen todo caps];
           eapply first_seq;
             [ apply first_boundary; unfold at_boundary; cbn [seen todo];
               rewrite Hnw; simpl (head _);
               cbn [from_option];
               rewrite isword_letter;
                 [done | eapply spelled_char_letter; [|eassumption];
                         by_evaluation]
             | ];
           eapply first_seq; [by apply first_star|];
           eapply first_seq; [apply first_group; by apply first_star_all|];
           reflexivity
       | |- _ => idtac
       end.
  all: cbn [seen todo caps]; unfold group; simpl;
    (split; [reflexivity | apply consumed_app]).
Qed.

Lemma typed_re_needs_colon x m :
  rematch typed_re x = Some m →
  ∃ w c td, x = w ++ c :: td ∧ Forall (λ c, ascii_letter c = true) w
            ∧ (c = 0x3A ∨ c = 0x28).
Proof.
  intros H%rematch_matches. unfold typed_re, Plus, start in H.
  inversion H as [| | |? ? ? ? ? HB H1| | | | | | | |]; subst; clear H.
  inversion HB; subst; clear HB.
  inversion H1 as [| | |? ? ? ? ? HG H2| | | | | | | |]; subst; clear H1.
  pose proof (matches_reads _ _ _ HG) as (w & Hseen & Htodo & Hw).
  simpl in Hseen, Htodo.
  assert (Forall (λ c, ascii_letter c = true) w) as Hw'.
  { eapply Forall_impl; [done|]. simpl. tauto. }
  assert (∃ c td, todo mid = c :: td ∧ (c = 0x3A ∨ c = 0x28))
    as (c & td & Htd & Hc).
  { inversion H2 as [| | |? ? ? ? ? HO HR| | | | | | | |]; subst; clear H2.
    inversion HO as [| | | | | |? ? ? HG2| | | | |]; subst; clear HO.
    - inversion HG2 as [| | | | | | | |? ? ? ? HS| | |]; subst; clear HG2.
      inversion HS as [| | |? ? ? ? ? HC _| | | | | | | |]; subst; clear HS.
      inversion HC as [|? ? ? ? ? Hj| | | | | | | | | |]; subst.
      apply Z.eqb_eq in Hj. eauto.
    - inversion HR as [| | |? ? ? ? ? HC _| | | | | | | |]; subst; clear HR.
      inversion HC as [|? ? ? ? ? Hj| | | | | | | | | |]; subst.
      apply Z.eqb_eq in Hj. eauto. }
  exists w, c, td. by rewrite Htodo, Htd.
Qed.

(** Where a run of letters ends is fixed by the text. *)
Lemma letter_run_unique P : ∀ w y c td,
  P ++ y = w ++ c :: td →
  Forall (λ c, ascii_letter c = true) P →
  Forall (λ c, ascii_letter c = true) w →
  ascii_letter c = false →
  from_option ascii_letter false (head y) = false →
  y = c :: td.
Proof.
  induction P as [|p P IH]; intros w y c td E HP Hw Hc Hy; simpl in E.
  - destruct w as [|d w]; [done|]. subst y. simpl in Hy.
    apply Forall_cons in Hw as [Hd _]. congruence.
  - apply Forall_cons in HP as [Hp HP].
    destruct w as [|d w]; simpl in E.
    + injection E as -> _. congruence.
    + injection E as -> E. apply Forall_cons in Hw as [_ Hw]. eauto.
Qed.

Lemma typed_re_no_match P y :
  Forall (λ c, ascii_letter c = true) P →
  from_option ends_word true (head y) = true →
  rematch typed_re (P ++ y) = None.
Proof.
  intros HP Hy. destruct (rematch typed_re (P ++ y)) as [m|] eqn:E; [|done].
  apply typed_re_needs_colon in E as (w & c & td & E & Hw & Hc).
  assert (ascii_letter c = false) as Hl by (by destruct Hc as [-> | ->]).
  apply letter_run_unique in E; [|done..|].
  - subst y. simpl in Hy. by destruct Hc as [-> | ->].
  - destruct y as [|c0 y]; [done|]. simpl in *.
    unfold ends_word, ascii_alnum in Hy.
    destruct (ascii_letter c0); [|done]. by rewrite andb_false_r in Hy.
Qed.

Lemma spelled_lower word P :
  Forall lower_letter word → Forall2 spelled_char word P →
  lower P = ord <$> word.
Proof.
  intros Hw HP. induction HP as [|a c word P Hc _ IH]; [done|].
  apply Forall_cons in Hw as [Ha Hw].
  change (lower (c :: P)) with (lower_char c ++ lower P).
  rewrite IH by done.
  assert (lower_char c = [ord a]) as ->; [|done].
  unfold lower_char, lower_letter, spelled_char in *.
  destruct ((65 <=? c) && (c <=? 90)) eqn:E1; [f_equal; lia|].
  destruct (c =? 304) eqn:E2; [exfalso; lia | f_equal; lia].
Qed.

Lemma spelled_letters word P :
  Forall lower_letter word → Forall2 spelled_char word P →
  Forall (λ c, ascii_letter c = true) P.
Proof.
  intros Hw HP. induction HP as [|a c word P Hc _ IH]; [done|].
  apply Forall_cons in Hw as [Ha Hw].
  constructor; [by eapply spelled_char_letter | auto].
Qed.

Lemma prefix_words_lower word :
  word ∈ prefix_words →
  Forall lower_letter (String.list_ascii_of_string word)
  ∧ String.list_ascii_of_string word ≠ [].
Proof.
  unfold prefix_words. intros H.
  repeat (apply elem_of_cons in H as [-> | H]);
    [..|by apply elem_of_nil in H]; (split; [by_evaluation | done]).
Qed.

(** X8.  A line that opens with a prefix word, a separator other than a colon
    (or nothing), and a remainder: the word, spelled in any mix of cases,
    is looked up in [TYPES] in lowercase, the separators are dropped, and
    the remainder is kept; when there is no remainder the whole line is
    kept in its place. *)
Theorem classify_prefixed_line (word : string) (P sp r : list Z) :
  word ∈ prefix_words → spelled word P →
  Forall (λ c, issep c = true) sp →
  from_option ends_word true (head (sp ++ r)) = true →
  from_option issep false (head r) = false →
  0x0A ∉ r →
  from_option isspace false (last (sp ++ r)) = false →
  classify tbl (P ++ sp ++ r)
  = types_get (lit word) ++ lit ": "
    ++ match r with [] => P ++ sp | _ :: _ => r end.
Proof.
  intros Hword HP Hsp Hend Hhd Hnl Hlast.
  destruct (prefix_words_lower _ Hword) as [Hlow Hne].
  pose proof (spelled_letters _ _ Hlow HP) as Hletters.
  pose proof (spelled_lower _ _ Hlow HP) as Hlower.
  destruct (prefix_re_match word P sp r) as (m & Hm & H1 & H2);
    [done | done | done | done | by apply no_linefeed_dot | done |].
  assert (P ≠ []) as HPne.
  { intros ->. inversion HP as [E|]. by rewrite <-E in Hne. }
  assert (trimmed (P ++ sp ++ r)) as Hx.
  { split.
    - destruct P as [|c P]; [done|]. simpl. apply letter_not_space.
      by apply Forall_cons in Hletters as [? _].
    - rewrite last_app. destruct (last (sp ++ r)) eqn:E; [done|].
      destruct (last P) as [c|] eqn:El; [|by apply last_None in El].
      simpl. apply letter_not_space.
      rewrite Forall_forall in Hletters. apply Hletters.
      apply last_Some in El as [l ->]. apply elem_of_app. right. by left. }
  assert (trimmed r) as Hr.
  { split.
    - destruct r as [|d r]; [done|]. simpl in *. unfold issep in Hhd.
      by destruct (isspace d); [rewrite orb_true_r in Hhd|].
    - destruct r as [|d r]; [done|]. rewrite last_app in Hlast.
      by destruct (last (d :: r)) eqn:E; [|apply last_None in E]. }
  unfold classify.
  rewrite (trimmed_strip _ Hx), (typed_re_no_match P (sp ++ r)) by done.
  rewrite Hm, H1, H2, Hlower, (trimmed_strip r Hr).
  destruct r; [by rewrite app_nil_r | done].
Qed.

End ClassifyFurther.

(** ** [rename_commits.py]: lines that fall to the default *)

Section PlainFurther.
Import PyStr Re RenameCommits.

Variable tbl : Z → bool.

Lemma iword_matches (w : list ascii) : ∀ sn td cs st',
  w ≠ [] → matches (iword_of w) (MState sn td cs) st' →
  ∃ P, Forall2 (λ a c, ichr a c = true) w P
       ∧ td = P ++ todo st' ∧ seen st' = reverse P ++ sn.
Proof.
  induction w as [|a w IH]; intros sn td cs st' Hne H; [done|].
  destruct w as [|b w].
  - inversion H; subst. exists [c]. split; [by repeat constructor | done].
  - change (iword_of (a :: b :: w))
      with (Seq (Chr (ichr a)) (iword_of (b :: w))) in H.
    inversion H as [| | |? ? ? mid ? HC HW| | | | | | | |]; subst; clear H.
    inversion HC; subst; clear HC.
    apply IH in HW as (P & HP & -> & ->); [|done].
    exists (c :: P). split; [by constructor|]. split; [done|].
    by rewrite reverse_cons, <-app_assoc.
Qed.

Lemma prefix_word_matches sn td cs st' :
  matches (iword "wip" ∣ iword "fix" ∣ iword "feature"
           ∣ (iword "doc" ⨾ Opt (Chr (ichr "s")))
           ∣ iword "refactor" ∣ iword "test" ∣ iword "perf"
           ∣ iword "build" ∣ iword "ci")%re (MState sn td cs) st' →
  ∃ word P, word ∈ prefix_words
            ∧ Forall2 (λ a c, ichr a c = true)
                (String.list_ascii_of_string word) P
            ∧ td = P ++ todo st' ∧ seen st' = reverse P ++ sn.
Proof.
  intros H.
  repeat match goal with
         | H : matches (Alt _ _) _ _ |- _ => inversion H; subst; clear H
         end;
    try match goal with
        | H : matches (iword ?w) _ _ |- _ =>
            apply iword_matches in H as (P & HP & E1 & E2); [|done];
            exists w, P; split; [by_evaluation | done]
        end.
  match goal with
  | H : matches (Seq _ _) _ _ |- _ =>
      inversion H as [| | |? ? ? mid ? HD HS| | | | | | | |]; subst; clear H
  end.
  destruct mid as [sn' td' cs'].
  apply iword_matches in HD as (P & HP & E1 & E2); [|done].
  simpl in E1, E2. subst.
  inversion HS as [| | | | | |? ? ? HC| | | | |]; subst; clear HS.
  - inversion HC; subst; clear HC.
    exists "docs"%string, (P ++ [c]). split; [by_evaluation|]. split.
    + change (String.list_ascii_of_string "docs")
        with (String.list_ascii_of_string "doc" ++ ["s"%char]).
      apply Forall2_app; [done | by repeat constructor].
    + simpl. split; [by rewrite <-app_assoc|].
      by rewrite reverse_app.
  - exists "doc"%string, P. split; [by_evaluation | done].
Qed.

(** A match of the second pattern begins with a prefix word, each letter in
    one of the forms its ignore-case literal accepts, and has a word boundary
    right after it. *)
Lemma prefix_re_needs_word x m :
  rematch (prefix_re tbl) x = Some m →
  ∃ word P y, word ∈ prefix_words
    ∧ Forall2 (λ a c, ichr a c = true) (String.list_ascii_of_string word) P
    ∧ x = P ++ y
    ∧ xorb (from_option (isword tbl) false (last P))
           (from_option (isword tbl) false (head y)) = true.
Proof.
  intros H%rematch_matches. unfold prefix_re, start in H.
  inversion H as [| | |? ? ? ? ? HB H1| | | | | | | |]; subst; clear H.
  inversion HB; subst; clear HB.
  inversion H1 as [| | |? ? ? mid ? HG H2| | | | | | | |]; subst; clear H1.
  inversion HG as [| | | | | | | |? ? ? st1 HA| | |]; subst; clear HG.
  apply prefix_word_matches in HA as (word & P & Hw & HP & E1 & E2).
  inversion H2 as [| | |? ? ? mid2 ? HBd _| | | | | | | |]; subst; clear H2.
  inversion HBd as [| | | | | | | | | | |? ? Hat]; subst; clear HBd.
  unfold at_boundary in Hat. simpl in Hat. rewrite E2 in Hat.
  rewrite app_nil_r, head_reverse in Hat.
  by exists word, P, (todo st1).
Qed.

Lemma ichr_ascii a c :
  lower_letter a → ichr a c = true → c < 0x80 → spelled_char a c.
Proof. unfold lower_letter, ichr, spelled_char. lia. Qed.

Lemma ichr_spelled_word word P :
  Forall lower_letter word → Forall (λ c, ascii_letter c = true) P →
  Forall2 (λ a c, ichr a c = true) word P → Forall2 spelled_char word P.
Proof.
  intros Hw HP H. induction H as [|a c word P Hc _ IH]; [done|].
  apply Forall_cons in Hw as [Ha Hw]. apply Forall_cons in HP as [Hl HP].
  constructor; [|auto]. apply ichr_ascii; [done | done|].
  unfold ascii_letter in Hl. lia.
Qed.

Lemma ends_letters_not_letter c :
  ends_letters c = true →
  ascii_letter c = false ∧ c < 0x80 ∧ c ≠ 0x3A ∧ c ≠ 0x28.
Proof. unfold ends_letters. destruct (ascii_letter c); [lia|]. lia. Qed.

Lemma typed_re_no_colon P y :
  Forall (λ c, ascii_letter c = true) P →
  from_option ends_letters true (head y) = true →
  rematch typed_re (P ++ y) = None.
Proof.
  intros HP Hy. destruct (rematch typed_re (P ++ y)) as [m|] eqn:E; [|done].
  apply (typed_re_needs_colon tbl) in E as (w & c & td & E & Hw & Hc).
  assert (ascii_letter c = false) as Hl by (by destruct Hc as [-> | ->]).
  apply letter_run_unique in E; [|done..|].
  - subst y. simpl in Hy. apply ends_letters_not_letter in Hy.
    destruct Hc; lia.
  - destruct y as [|c0 y]; [done|]. simpl in *.
    by apply ends_letters_not_letter in Hy as [? _].
Qed.

Lemma prefix_re_no_word P y :
  P ≠ [] → Forall (λ c, ascii_letter c = true) P →
  from_option ends_letters true (head y) = true →
  (lower P ∈ lit <$> prefix_words →
   from_option (isword tbl) false (head y) = true) →
  rematch (prefix_re tbl) (P ++ y) = None.
Proof.
  intros Hne HP Hy Hw.
  destruct (rematch (prefix_re tbl) (P ++ y)) as [m|] eqn:E; [|done].
  exfalso.
  apply prefix_re_needs_word in E as (word & P' & y' & Hword & HP' & E & Hb).
  destruct (prefix_words_lower _ Hword) as [Hlow Hwne].
  apply app_eq_inv in E as [(k & E1 & E2) | (k & E1 & E2)].
  - (* the word ends inside the run of letters, or with it *)
    subst P y'. apply Forall_app in HP as [HP1 HP2].
    pose proof (ichr_spelled_word _ _ Hlow HP1 HP') as Hsp.
    assert (from_option (isword tbl) false (last P') = true) as Hlast.
    { destruct (last P') as [c|] eqn:El.
      - simpl. apply isword_letter. rewrite Forall_forall in HP1.
        apply HP1. apply last_Some in El as [l ->].
        apply elem_of_app. right. by left.
      - apply last_None in El. subst P'. inversion HP' as [E0|].
        by rewrite <-E0 in Hwne. }
    rewrite Hlast in Hb.
    destruct k as [|d k].
    + rewrite app_nil_r in Hw. simpl in Hb. rewrite Hw in Hb; [done|].
      rewrite (spelled_lower _ _ Hlow Hsp).
      by apply (list_elem_of_fmap_2' lit prefix_words word).
    + simpl in Hb. apply Forall_cons in HP2 as [Hd _].
      by rewrite (isword_letter tbl d Hd) in Hb.
  - (* the word goes on after the run of letters *)
    subst P'. destruct k as [|c0 k].
    + rewrite app_nil_r in HP', Hb. simpl in E2. subst y.
      pose proof (ichr_spelled_word _ _ Hlow HP HP') as Hsp.
      assert (from_option (isword tbl) false (last P) = true) as Hlast.
      { destruct (last P) as [c|] eqn:El.
        - simpl. apply isword_letter. rewrite Forall_forall in HP.
          apply HP. apply last_Some in El as [l ->].
        apply elem_of_app. right. by left.
        - by apply last_None in El. }
      rewrite Hlast in Hb. simpl in Hb. rewrite Hw in Hb; [done|].
      rewrite (spelled_lower _ _ Hlow Hsp).
      by apply (list_elem_of_fmap_2' lit prefix_words word).
    + subst y. simpl in Hy. apply ends_letters_not_letter in Hy.
      apply Forall2_app_inv_r in HP' as (w1 & w2 & _ & H2 & Ew).
      inversion H2 as [|a ? w2' ? Hc _]; subst.
      rewrite Ew in Hlow. apply Forall_app in Hlow as [_ Hlow].
      apply Forall_cons in Hlow as [Ha _].
      pose proof (ichr_ascii a c0 Ha Hc) as Hs.
      unfold spelled_char, lower_letter, ascii_letter in *. lia.
Qed.

(** X9.  A line that opens with ASCII letters which are followed neither by a
    letter, a colon or an opening parenthesis, nor by any character beyond
    ASCII, and which do not spell a prefix word (or do, but with a digit or
    an underscore right after it), is filed under "chore" as it is. *)
Theorem classify_plain_line (s P y : list Z) :
  strip s = P ++ y → P ≠ [] →
  Forall (λ c, ascii_letter c = true) P →
  from_option ends_letters true (head y) = true →
  (lower P ∈ lit <$> prefix_words →
   from_option (isword tbl) false (head y) = true) →
  classify tbl s = lit "chore: " ++ P ++ y.
Proof.
  intros Hs Hne HP Hy Hw. unfold classify. rewrite Hs.
  rewrite typed_re_no_colon, prefix_re_no_word by done.
  by destruct P.
Qed.

End PlainFurther.


(** ** [rename_commits.py]: the subject in normal form *)

Section SubjectFurther.
Import PyStr Re RenameCommits.

Variable tbl : Z → bool.

Lemma sub_plus_from_keep repl pre : ∀ b x,
  Forall (λ c, isspace c = false) pre → pre ≠ [] →
  sub_plus_from isspace repl b (pre ++ x)
  = pre ++ sub_plus_from isspace repl false x.
Proof.
  induction pre as [|c pre IH]; intros b x Hpre Hne; [done|].
  apply Forall_cons in Hpre as [Hc Hpre]. simpl. rewrite Hc. f_equal.
  destruct pre as [|d pre]; [done|]. by apply IH.
Qed.

Lemma sub_plus_from_id x : ∀ b,
  single_spaced x →
  (b = true → from_option isspace false (head x) = false) →
  sub_plus_from isspace (lit " ") b x = x.
Proof.
  induction x as [|c x IH]; intros b Hsp Hb; [done|].
  destruct Hsp as [Hc Hx]. simpl.
  destruct (isspace c) eqn:E.
  - destruct b; [by specialize (Hb eq_refl); simpl in Hb; congruence|].
    destruct (Hc eq_refl) as [-> Hn]. simpl. f_equal. by apply IH.
  - f_equal. by apply IH.
Qed.

Lemma single_spaced_keep pre x :
  Forall (λ c, isspace c = false) pre → single_spaced x →
  single_spaced (pre ++ x).
Proof.
  induction 1 as [|c pre Hc _ IH]; intros Hx; [done|]. simpl.
  split; [intros ?; congruence | auto].
Qed.

(** In a single-spaced text the space is the only whitespace: no tab, no
    line feed, no no-break space. *)
Lemma single_spaced_only_spaces x c :
  single_spaced x → c ∈ x → isspace c = true → c = 0x20.
Proof.
  induction x as [|d x IH]; intros Hsp Hin Hc; [by apply elem_of_nil in Hin|].
  destruct Hsp as [Hd Hx].
  apply elem_of_cons in Hin as [->|Hin]; [by destruct (Hd Hc) | auto].
Qed.

Lemma canonical_short t : t ∈ canonical_types → (length t ≤ 8)%nat.
Proof.
  unfold canonical_types. intros H.
  repeat (apply elem_of_cons in H as [-> | H]);
    [..|by apply elem_of_nil in H]; vm_compute; lia.
Qed.

Lemma canonical_no_space t :
  t ∈ canonical_types → Forall (λ c, isspace c = false) t.
Proof.
  intros (_ & _ & _ & _ & _ & Hl)%canonical_fixed.
  eapply Forall_impl; [done|]. apply letter_not_space.
Qed.

Lemma rstrip_cons c s : isspace c = false → ∃ l, rstrip (c :: s) = c :: l.
Proof.
  intros Hc. destruct (rstrip_split (c :: s)) as [w [E Hw]].
  destruct (rstrip (c :: s)) as [|d l]; simpl in E.
  - rewrite <-E in Hw. apply Forall_cons in Hw as [? _]. congruence.
  - injection E as <- _. eauto.
Qed.

Lemma rstrip_length s : (length (rstrip s) ≤ length s)%nat.
Proof.
  destruct (rstrip_split s) as [w [E _]]. rewrite E at 2.
  rewrite length_app. lia.
Qed.

Lemma rstrip_single_spaced s : single_spaced s → single_spaced (rstrip s).
Proof.
  intros H. destruct (rstrip_split s) as [w [E _]]. rewrite E in H.
  by apply single_spaced_app_l in H.
Qed.

Lemma typed_line_assoc (pre r : list Z) :
  pre ++ lit ": " ++ r = (pre ++ [0x3A]) ++ 0x20 :: r.
Proof. by rewrite <-app_assoc. Qed.

(** A subject in normal form is a fixed point of [normalize_subject]. *)
Lemma normal_subject_fixed x :
  normal_subject x → normalize_subject tbl x = x.
Proof.
  intros (t & r & Ht & -> & Hr & Hsr & Hlen).
  pose proof (canonical_no_space t Ht) as Hns.
  destruct (canonical_fixed _ Ht) as (_ & _ & c & t' & -> & Hl).
  assert (Forall (λ c, isspace c = false) ((c :: t') ++ [0x3A])) as Hpre.
  { apply Forall_app. split; [done | by repeat constructor]. }
  unfold normalize_subject, slice_to, sub_plus.
  destruct r as [|d r].
  - assert (strip ((c :: t') ++ [0x3A] ++ [] ++ [])
            = (c :: t') ++ [0x3A] ++ [] ++ []) as Hs.
    { apply trimmed_strip, trimmed_typed_line; try done.
      by apply Forall_cons in Hns as [? _]. }
    change ((c :: t') ++ [0x3A] ++ [])
      with ((c :: t') ++ [0x3A] ++ [] ++ []) at 1.
    rewrite (classify_typed tbl c t' [] []);
      [| done | done | apply not_elem_of_nil | done | done].
    rewrite typed_line_assoc.
    rewrite sub_plus_from_keep by (done || by destruct t').
    change (sub_plus_from isspace (lit " ") false [0x20]) with [0x20].
    assert (strip (((c :: t') ++ [0x3A]) ++ [0x20]) = (c :: t') ++ [0x3A]) as ->.
    { rewrite <-(app_nil_l ((c :: t') ++ [0x3A])) at 1.
      rewrite <-app_assoc, strip_spaces by (by repeat constructor).
      apply trimmed_strip.
      by apply (trimmed_typed_line (c :: t') [] []); [| apply Forall_cons in Hns as [? _] | |]. }
    rewrite take_ge; [done | exact Hlen].
  - assert (0x0A ∉ d :: r) as Hnl.
    { intros Hin. by pose proof (single_spaced_only_spaces _ _ Hsr Hin eq_refl). }
    assert (strip ((c :: t') ++ [0x3A] ++ [0x20] ++ d :: r)
            = (c :: t') ++ [0x3A] ++ [0x20] ++ d :: r) as Hs.
    { apply trimmed_strip, trimmed_typed_line; try done.
      by apply Forall_cons in Hns as [? _]. }
    change ((c :: t') ++ [0x3A] ++ 0x20 :: d :: r)
      with ((c :: t') ++ [0x3A] ++ [0x20] ++ d :: r) in *.
    rewrite (classify_typed tbl c t' [0x20] (d :: r))
      by (done || by repeat constructor).
    change ((c :: t') ++ lit ": " ++ d :: r)
      with ((c :: t') ++ [0x3A] ++ [0x20] ++ d :: r).
    rewrite sub_plus_from_id, Hs, take_ge; [done | done | | done].
    rewrite app_assoc. apply single_spaced_keep; [done|].
    destruct Hr as [Hhd _]. simpl. split; [by intros _ | done].
Qed.

(** Whatever the line, the subject made of it is in normal form once the
    whitespace the cut may have left at its end is removed. *)
Lemma normalize_subject_normal s :
  normal_subject (strip (normalize_subject tbl s)).
Proof.
  destruct (classify_shape tbl s) as (t & r0 & Ht & E & Hr0 & _).
  pose proof (canonical_no_space t Ht) as Hns.
  pose proof (canonical_short t Ht) as Hshort.
  destruct (canonical_fixed _ Ht) as (_ & _ & c & t' & -> & Hl).
  assert (isspace c = false) as Hc by (by apply Forall_cons in Hns as [? _]).
  assert (Forall (λ c, isspace c = false) ((c :: t') ++ [0x3A])) as Hpre.
  { apply Forall_app. split; [done | by repeat constructor]. }
  unfold normalize_subject, slice_to, sub_plus. rewrite E.
  rewrite typed_line_assoc.
  rewrite sub_plus_from_keep by (done || by destruct t').
  change (sub_plus_from isspace (lit " ") false (0x20 :: r0))
    with (0x20 :: sub_plus_from isspace (lit " ") true r0).
  destruct (sub_plus_from_spaced r0 true) as [Hq Hqh].
  specialize (Hqh eq_refl).
  destruct (sub_plus_from isspace (lit " ") true r0) as [|c1 q1].
  - (* nothing after the colon *)
    assert (strip (((c :: t') ++ [0x3A]) ++ [0x20]) = (c :: t') ++ [0x3A]) as ->.
    { rewrite <-(app_nil_l ((c :: t') ++ [0x3A])) at 1.
      rewrite <-app_assoc, strip_spaces by (by repeat constructor).
      by apply trimmed_strip, (trimmed_typed_line (c :: t') [] []). }
    rewrite take_ge by (rewrite length_app; simpl in *; lia).
    rewrite trimmed_strip by (by apply (trimmed_typed_line (c :: t') [] [])).
    exists (c :: t'), []. split; [done|]. split; [done|].
    split; [done|]. split; [done|]. rewrite length_app. simpl in *. lia.
  - simpl in Hqh.
    destruct (rstrip_cons c1 q1 Hqh) as [q2 Eq2].
    assert (strip (((c :: t') ++ [0x3A]) ++ 0x20 :: c1 :: q1)
            = ((c :: t') ++ [0x3A; 0x20]) ++ c1 :: q2) as ->.
    { unfold strip. rewrite lstrip_id by done.
      replace (((c :: t') ++ [0x3A]) ++ 0x20 :: c1 :: q1)
        with (((c :: t') ++ [0x3A; 0x20]) ++ c1 :: q1)
        by (by rewrite <-!app_assoc).
      by rewrite rstrip_app_keep, Eq2. }
    assert (single_spaced (c1 :: q2)) as Hq2.
    { rewrite <-Eq2. by apply rstrip_single_spaced. }
    rewrite take_app_ge by (rewrite length_app; simpl in *; lia).
    set (k := (120 - length ((c :: t') ++ [0x3A%Z; 0x20%Z]))%nat).
    assert (∃ k', k = S k') as [k' Ek].
    { exists (119 - length ((c :: t') ++ [0x3A%Z; 0x20%Z]))%nat.
      unfold k. rewrite length_app. simpl in *. lia. }
    rewrite Ek. simpl take.
    destruct (rstrip_cons c1 (take k' q2) Hqh) as [q3 Eq3].
    assert (strip (((c :: t') ++ [0x3A; 0x20]) ++ c1 :: take k' q2)
            = ((c :: t') ++ [0x3A; 0x20]) ++ c1 :: q3) as ->.
    { unfold strip. rewrite lstrip_id by done.
      by rewrite rstrip_app_keep, Eq3. }
    exists (c :: t'), (c1 :: q3). split; [done|].
    split; [by rewrite <-!app_assoc|].
    split; [|split].
    + split; [done|]. rewrite <-Eq3. apply rstrip_last.
    + rewrite <-Eq3. apply rstrip_single_spaced.
      by apply (single_spaced_take (S k') (c1 :: q2)).
    + pose proof (rstrip_length (c1 :: take k' q2)) as Hlen.
      rewrite Eq3 in Hlen. simpl in Hlen. rewrite length_take in Hlen.
      unfold k in Ek. rewrite !length_app in *. simpl in *. lia.
Qed.

Lemma normalize_subject_strip x :
  normalize_subject tbl (strip x) = normalize_subject tbl x.
Proof. unfold normalize_subject. by rewrite classify_strip. Qed.

Lemma normalize_subject_head s :
  from_option isspace false (head (normalize_subject tbl s)) = false.
Proof.
  unfold normalize_subject, slice_to.
  destruct (strip_trimmed (sub_plus isspace (lit " ") (classify tbl s)))
    as [H _].
  by destruct (strip _) as [|c l].
Qed.

Lemma normalize_subject_single_spaced s :
  single_spaced (normalize_subject tbl s).
Proof. apply single_spaced_take, single_spaced_strip, sub_plus_spaced. Qed.

Lemma normalize_subject_no_linefeed s : 0x0A ∉ normalize_subject tbl s.
Proof.
  intros Hin.
  by pose proof (single_spaced_only_spaces _ _
                   (normalize_subject_single_spaced s) Hin eq_refl).
Qed.

Lemma single_spaced_tail w :
  single_spaced w → Forall (λ c, isspace c = true) w → w = [] ∨ w = [0x20].
Proof.
  destruct w as [|c w]; [by left|]. intros [Hc _] [Hs Hw]%Forall_cons.
  destruct (Hc Hs) as [-> Hh]. right. destruct w as [|d w]; [done|].
  apply Forall_cons in Hw as [Hd _]. simpl in Hh. congruence.
Qed.

Lemma normalize_subject_open s :
  ∃ t v, t ∈ canonical_types ∧ normalize_subject tbl s = t ++ [0x3A] ++ v.
Proof.
  destruct (normalize_subject_normal s) as (t & r & Ht & E & _).
  destruct (rstrip_split (normalize_subject tbl s)) as [w [Ew _]].
  unfold strip in E. rewrite lstrip_id in E by apply normalize_subject_head.
  exists t, (match r with [] => [] | _ :: _ => 0x20 :: r end ++ w).
  split; [done|]. rewrite Ew, E. by rewrite <-!app_assoc.
Qed.

(** X10.  Whatever the line, the subject is in normal form (a canonical
    keyword, a colon, then nothing or one space and a trimmed remainder whose
    only whitespace is single spaces), except that a subject cut at 120
    characters may end with one space. *)
Theorem normalize_subject_form s :
  let u := normalize_subject tbl s in
  normal_subject (strip u) ∧ (u = strip u ∨ u = strip u ++ [0x20]).
Proof.
  intros u. split; [apply normalize_subject_normal|].
  destruct (rstrip_split u) as [w [Ew Hw]].
  unfold strip. rewrite lstrip_id by apply normalize_subject_head.
  fold u. pose proof (normalize_subject_single_spaced s) as Hu. fold u in Hu.
  rewrite Ew in Hu. apply single_spaced_app_r in Hu.
  destruct (single_spaced_tail w Hu Hw) as [-> | ->].
  - left. by rewrite app_nil_r in Ew.
  - by right.
Qed.

Lemma normalize_subject_trims s :
  let u := normalize_subject tbl s in
  normalize_subject tbl u = strip u
  ∧ normalize_subject tbl (strip u) = strip u.
Proof.
  intros u.
  assert (normalize_subject tbl (strip u) = strip u) as H
    by apply normal_subject_fixed, normalize_subject_normal.
  split; [by rewrite <-normalize_subject_strip | done].
Qed.

(** X11.  Normalizing a subject again only trims it, after which it stays as it
    is; the second pass changes nothing at all when the collapsed and
    trimmed line had at most 120 characters. *)
Theorem normalize_subject_twice s :
  let u := normalize_subject tbl s in
  normalize_subject tbl u = strip u
  ∧ normalize_subject tbl (strip u) = strip u
  ∧ ((length (strip (sub_plus isspace (lit " ") (classify tbl s))) ≤ 120)%nat
     → normalize_subject tbl u = u).
Proof.
  intros u. destruct (normalize_subject_trims s) as [H1 H2]. fold u in H1, H2.
  split; [done|]. split; [done|].
  intros Hlen. rewrite H1. apply trimmed_strip.
  unfold u, normalize_subject, slice_to. rewrite take_ge by done.
  apply strip_trimmed.
Qed.

End SubjectFurther.

(** ** [rename_commits.py]: the message as text *)

Section MessageFurther.
Import PyStr Re Utf8 RenameCommits.

Variable tbl : Z → bool.

Lemma split_once_at sep a b :
  sep ∉ a → split_once sep (a ++ sep :: b) = (a, b).
Proof.
  induction a as [|c a IH]; simpl; intros H; [by rewrite Z.eqb_refl|].
  apply not_elem_of_cons in H as [H1 H2].
  destruct (c =? sep) eqn:E; [apply Z.eqb_eq in E; congruence|].
  by rewrite IH.
Qed.

Lemma strip_not_elem c x : c ∉ x → c ∉ strip x.
Proof.
  intros H Hin. apply H. destruct (strip_split x) as (w1 & w2 & E & _).
  rewrite E. set_solver.
Qed.

Lemma strip_blank w : Forall (λ c, isspace c = true) w → strip w = [].
Proof.
  intros H. rewrite <-(app_nil_r w). change [] with ([] ++ @nil Z) at 1.
  by rewrite strip_spaces.
Qed.

Lemma rename_message_laid_out m :
  let text := strip (decode m) in
  rename_message tbl m
  = encode (laid_out (normalize_subject tbl (first_line text))
                     (strip (after_first_line text))).
Proof.
  rewrite rename_message_unfold. cbv zeta. unfold laid_out.
  destruct (strip (after_first_line _)); [by rewrite app_nil_r | done].
Qed.

Lemma laid_out_scalar subj body :
  Forall scalar subj → Forall scalar body → Forall scalar (laid_out subj body).
Proof.
  intros Hs Hb. unfold laid_out. apply Forall_app. split; [done|].
  destruct body; [done|]. apply Forall_app. split; [|done].
  repeat constructor; unfold scalar; lia.
Qed.

Lemma laid_out_split x body :
  0x0A ∉ x →
  first_line (laid_out x body) = x
  ∧ after_first_line (laid_out x body)
    = match body with [] => [] | _ :: _ => 0x0A :: body end.
Proof.
  intros Hx. unfold first_line, after_first_line, laid_out.
  destruct body as [|d body].
  - by rewrite app_nil_r, split_once_notin.
  - change ([0x0A; 0x0A] ++ d :: body) with (0x0A :: 0x0A :: d :: body).
    by rewrite split_once_at.
Qed.

(** What a pass over an encoded message in this layout returns. *)
Lemma rename_message_pass x body bs :
  normalize_subject tbl x = strip x → 0x0A ∉ x →
  x ≠ [] → from_option isspace false (head x) = false →
  trimmed body →
  encode (laid_out x body) = Some bs →
  rename_message tbl bs = encode (laid_out (strip x) body).
Proof.
  intros Hn Hx Hne Hhd Hb He.
  rewrite rename_message_laid_out. cbv zeta. rewrite (decode_encode _ _ He).
  destruct body as [|d body].
  - assert (∀ y, laid_out y [] = y) as Hl0
      by (intros y; unfold laid_out; apply app_nil_r).
    destruct (laid_out_split (strip x) []) as [E1 E2];
      [by apply strip_not_elem|].
    rewrite !Hl0 in *. rewrite E1, E2. change (strip []) with (@nil Z).
    by rewrite Hl0, normalize_subject_strip, Hn.
  - assert (strip (laid_out x (d :: body)) = laid_out x (d :: body)) as ->.
    { apply trimmed_strip. destruct Hb as [_ Hl]. split.
      - by destruct x.
      - unfold laid_out.
        change ([0x0A; 0x0A] ++ d :: body) with (0x0A :: 0x0A :: d :: body).
        by rewrite last_app_cons, !last_cons_cons. }
    destruct (laid_out_split x (d :: body) Hx) as [-> ->].
    rewrite Hn.
    assert (strip (0x0A :: d :: body) = d :: body) as ->; [|done].
    change (0x0A :: d :: body) with ([0x0A] ++ d :: body).
    rewrite <-(app_nil_r (d :: body)) at 1.
    rewrite strip_spaces by (by repeat constructor).
    by apply trimmed_strip.
Qed.

(** X12.  Read back as text, the message returned is the subject alone or the
    subject, one empty line and the body: its first line is the normalized
    subject of the first line of the trimmed input, which opens with a
    canonical keyword and a colon, and what follows it is a line feed and
    the trimmed body when there is one. *)
Theorem rename_message_reread (m : list byte) :
  let text := strip (decode m) in
  let subj := normalize_subject tbl (first_line text) in
  let body := strip (after_first_line text) in
  ∃ out, rename_message tbl m = Some out
         ∧ decode out = laid_out subj body
         ∧ first_line (decode out) = subj
         ∧ after_first_line (decode out)
           = match body with [] => [] | _ :: _ => 0x0A :: body end
         ∧ ∃ t v, t ∈ canonical_types ∧ subj = t ++ [0x3A] ++ v.
Proof.
  intros text subj body.
  assert (Forall scalar text) as Htext by apply strip_Forall, decode_scalar.
  destruct (encode_scalar (laid_out subj body)) as [out Hout].
  { apply laid_out_scalar.
    - by apply normalize_subject_scalar, first_line_Forall.
    - by apply strip_Forall, after_first_line_Forall. }
  exists out. rewrite rename_message_laid_out. fold text subj body.
  rewrite (decode_encode _ _ Hout).
  destruct (laid_out_split subj body) as [E1 E2];
    [apply normalize_subject_no_linefeed|].
  repeat split; try done. apply normalize_subject_open.
Qed.

(** X13.  A second pass over a returned message only removes the space a cut
    subject may end with, and a third pass changes nothing: what the second
    pass returns is a fixed point, and so is what the first pass returns when
    its subject is trimmed. *)
Theorem rename_message_again (m : list byte) :
  let text := strip (decode m) in
  let subj := normalize_subject tbl (first_line text) in
  let body := strip (after_first_line text) in
  ∃ out out2,
    rename_message tbl m = Some out
    ∧ rename_message tbl out = Some out2
    ∧ rename_message tbl out2 = Some out2
    ∧ decode out2 = laid_out (strip subj) body
    ∧ (strip subj = subj → out2 = out).
Proof.
  intros text subj body.
  assert (Forall scalar text) as Htext by apply strip_Forall, decode_scalar.
  assert (Forall scalar subj) as Hsubj
    by (by apply normalize_subject_scalar, first_line_Forall).
  assert (Forall scalar body) as Hbody
    by (by apply strip_Forall, after_first_line_Forall).
  destruct (encode_scalar (laid_out subj body)) as [out Hout];
    [by apply laid_out_scalar|].
  destruct (encode_scalar (laid_out (strip subj) body)) as [out2 Hout2];
    [by apply laid_out_scalar; [apply strip_Forall|]|].
  destruct (normalize_subject_trims tbl (first_line text)) as [H1 H2].
  fold subj in H1, H2.
  destruct (normalize_subject_open tbl (first_line text))
    as (t & v & Ht & Esubj).
  fold subj in Esubj.
  destruct (canonical_fixed _ Ht) as (_ & _ & c & t' & -> & Hl).
  assert (isspace c = false) as Hc.
  { apply letter_not_space. by apply Forall_cons in Hl as [? _]. }
  pose proof (normalize_subject_no_linefeed tbl (first_line text)) as Hnl.
  fold subj in Hnl.
  assert (from_option isspace false (head (strip subj)) = false) as Hhd
    by apply strip_trimmed.
  assert (strip subj ≠ []) as Hne.
  { destruct (normalize_subject_normal tbl (first_line text))
      as (t2 & r & _ & E & _).
    fold subj in E. rewrite E. by destruct t2. }
  exists out, out2. rewrite rename_message_laid_out. fold text subj body.
  split; [done|]. split; [|split; [|split]].
  - rewrite <-Hout2. apply rename_message_pass; try done.
    + by rewrite Esubj.
    + rewrite Esubj. by simpl.
    + apply strip_trimmed.
  - transitivity (encode (laid_out (strip (strip subj)) body));
      [|by rewrite strip_idemp].
    apply rename_message_pass; try done.
    + by rewrite strip_idemp.
    + by apply strip_not_elem.
    + apply strip_trimmed.
  - by apply decode_encode.
  - intros E. rewrite E in Hout2. congruence.
Qed.

(** X14.  A message that decodes to nothing but whitespace, the empty message
    among them, becomes the fixed message of an empty commit. *)
Theorem rename_message_blank (m : list byte) :
  Forall (λ c, isspace c = true) (decode m) →
  rename_message tbl m = Some (blit "chore: empty commit").
Proof.
  intros H. rewrite rename_message_unfold. cbv zeta.
  rewrite (strip_blank _ H). by vm_compute.
Qed.

End MessageFurther.

Section ClassifyWitnesses.
Import PyStr Re RenameCommits.

(** An issue number in front of the text. *)
Lemma classify_without_leading_letter_witness :
  classify (λ _, false) (PyStr.lit "  #42 fix the build ")
  = PyStr.lit "chore: #42 fix the build".
Proof.
  apply (classify_without_leading_letter (λ _, false)
           (PyStr.lit "  #42 fix the build ") 0x23
           (PyStr.lit "42 fix the build"));
    by vm_compute.
Defined.

(** A capitalized type with a scope, and a word that is no type. *)
Lemma classify_typed_line_witness :
  classify (λ _, false) (PyStr.lit "Refactor(core):  split module")
  = PyStr.lit "refactor: split module"
  ∧ classify (λ _, false) (PyStr.lit "Misc: tidy up")
    = PyStr.lit "chore: tidy up".
Proof.
  split.
  - apply (classify_typed_line (λ _, false) 0x52 (PyStr.lit "efactor")
             (PyStr.lit "core") (PyStr.lit "  ") (PyStr.lit "split module"));
      try by_evaluation; by vm_compute.
  - apply (classify_typed_line (λ _, false) 0x4D (PyStr.lit "isc")
             [] (PyStr.lit " ") (PyStr.lit "tidy up"));
      try by_evaluation; by vm_compute.
Defined.

(** Tabs and a no-break space around a line. *)
Lemma classify_ignores_outer_space_witness :
  classify (λ _, false) ([0x09; 0xA0] ++ PyStr.lit "docs: x" ++ [0x20; 0x0A])
  = classify (λ _, false) (PyStr.lit "docs: x").
Proof.
  apply (classify_ignores_outer_space (λ _, false)); by_evaluation.
Defined.

(** "WIP" with a hyphen, "doc" in capitals (which is no key of [TYPES]),
    and a bare prefix word. *)
Lemma classify_prefixed_line_witness :
  classify (λ _, false) (lit "WIP - parser") = lit "chore: parser"
  ∧ classify (λ _, false) (lit "DOC update readme") = lit "chore: update readme"
  ∧ classify (λ _, false) (lit "Fix") = lit "fix: Fix".
Proof.
  split; [|split].
  - apply (classify_prefixed_line (λ _, false) "wip" (lit "WIP") (lit " - ")
             (lit "parser"));
      try by_evaluation; try (by vm_compute).
    repeat constructor; by vm_compute.
  - apply (classify_prefixed_line (λ _, false) "doc" (lit "DOC") (lit " ")
             (lit "update readme"));
      try by_evaluation; try (by vm_compute).
    repeat constructor; by vm_compute.
  - apply (classify_prefixed_line (λ _, false) "fix" (lit "Fix") [] []);
      try by_evaluation; try (by vm_compute).
    repeat constructor; by vm_compute.
Defined.

Lemma classify_plain_line_witness :
  classify (λ _, false) (lit "  Fixed the bug ") = lit "chore: Fixed the bug"
  ∧ classify (λ _, false) (lit "fix_it now") = lit "chore: fix_it now".
Proof.
  split.
  - apply (classify_plain_line (λ _, false) (lit "  Fixed the bug ")
             (lit "Fixed") (lit " the bug")).
    + reflexivity.
    + done.
    + by_evaluation.
    + reflexivity.
    + intros H. exfalso. revert H. by_evaluation.
  - apply (classify_plain_line (λ _, false) (lit "fix_it now")
             (lit "fix") (lit "_it now")).
    + reflexivity.
    + done.
    + by_evaluation.
    + reflexivity.
    + intros _. reflexivity.
Defined.
Lemma rename_message_blank_witness :
  Forall (λ c, isspace c = true) (Utf8.decode [x20; x0a; x09; x20])
  ∧ rename_message (λ _, false) [x20; x0a; x09; x20]
    = Some (Utf8.blit "chore: empty commit").
Proof.
  split; [by_evaluation|].
  apply (rename_message_blank (λ _, false) [x20; x0a; x09; x20]).
  by_evaluation.
Defined.

End ClassifyWitnesses.
